(** * Kubeflow notebooks: CRUD web-app backends and the manifest image updater

    A shallow embedding of
    - [crud_backend/settings.py]            (module [Settings]),
    - [crud_backend/api/pvc.py]             (module [Pvc]),
    - [volumes/backend/entrypoint.py]       (module [Entrypoint]),
    - [tensorboards/backend/app/routes/get.py] (module [Tensorboards]),
    - [releasing/update-manifests-images.py]   (module [Releasing]),
    together with the properties the specification states about them. *)

From stdpp Require Import gmap strings list.

Set Warnings "-clear-no-such-hyp".

(** ** Python exceptions and fallible results *)

(** Why a call does not fit the parameters of the function [f]. *)
Inductive bad_call :=
  | UnexpectedKeyword (f k : string)
  | MultipleValues (f k : string)
  | MissingArgument (f k : string)
  | TooManyPositional (f : string).

Inductive exn :=
  | TypeError (why : bad_call)
  | KeyError (key : string)
  | RuntimeError (msg : string)
  | FileNotFoundError (path : string)
  | SystemExit (code : Z)
  | Unauthorized (msg : string)
  | ApiException (status : Z).

Inductive result (A : Type) :=
  | Ok (a : A)
  | Err (e : exn).
Arguments Ok {A} a.
Arguments Err {A} e.

(** [result] is the error monad: [x ← r; k] stops at the first [Err]. *)
#[global] Instance result_ret : MRet result := λ A a, Ok a.
#[global] Instance result_bind : MBind result := λ A B k r,
  match r with
  | Ok a => k a
  | Err e => Err e
  end.

(** ** Python values that cross the functions modelled here *)

(** [VObject] stands for an API object or a payload, by its manifest;
    [VMethod self name] is the bound method [self.name], not called. *)
Inductive value :=
  | VNone
  | VBool (b : bool)
  | VStr (s : string)
  | VObject (manifest : string)
  | VMethod (self : value) (name : string).

(** [a == b].  Values of different kinds are never equal; in particular
    a bound method object is not equal to any string.  Two objects are
    compared by their manifest, two bound methods by receiver and name. *)
Fixpoint value_eq (a b : value) : bool :=
  match a, b with
  | VNone, VNone => true
  | VBool x, VBool y => bool_decide (x = y)
  | VStr x, VStr y => bool_decide (x = y)
  | VObject x, VObject y => bool_decide (x = y)
  | VMethod x m, VMethod y n => value_eq x y && bool_decide (m = n)
  | _, _ => false
  end.

(** Truth value of [v] in [if v] and [x if v else y]. *)
Definition truthy (v : value) : bool :=
  match v with
  | VNone => false
  | VBool b => b
  | VStr s => negb (bool_decide (s = ""))
  | VObject _ => true
  | VMethod _ _ => true
  end.

(** [os.getenv(key, default)] and [os.environ.get(key, default)] *)
Definition getenv (environ : gmap string string) (key dflt : string) : string :=
  default dflt (environ !! key).

(** ** crud_backend/settings.py *)

Module Settings.

(** [os.getenv("APP_DISABLE_AUTH", "false").lower == "true"]: the
    attribute [lower] is read and not called, so the left operand of [==]
    is the bound method of the string. *)
Definition DISABLE_AUTH (environ : gmap string string) : bool :=
  value_eq (VMethod (VStr (getenv environ "APP_DISABLE_AUTH" "false")) "lower")
           (VStr "true").

Definition USER_HEADER (environ : gmap string string) : string :=
  getenv environ "USERID_HEADER" "kubeflow-userid".

Definition USER_PREFIX (environ : gmap string string) : string :=
  getenv environ "USERID_PREFIX" ":".

End Settings.

(** ** crud_backend/api/pvc.py *)

Module Pvc.

(** The arguments of one [authz.ensure_authorized] call. *)
Record access_request := AccessRequest {
  verb : string;
  group : string;
  version : string;
  resource : string;
  namespace : value
}.

(** The calls the functions make on [v1_core], arguments in call order. *)
Inductive adapter_call :=
  | create_namespaced_persistent_volume_claim (namespace pvc dry_run : value)
  | delete_namespaced_persistent_volume_claim (pvc namespace : value)
  | list_namespaced_persistent_volume_claim (namespace : value)
  | patch_namespaced_persistent_volume_claim (name namespace pvc : value).

(** What a run leaves behind, in order: gate checks and adapter calls. *)
Inductive event :=
  | GateCheck (request : access_request)
  | AdapterCall (call : adapter_call).

(** The functions of the module and their parameter lists. *)
Inductive function := create_pvc_fn | delete_pvc_fn | list_pvcs_fn | patch_pvc_fn.

Record parameter := Param {
  param_name : string;
  param_default : option value
}.

Definition function_name (f : function) : string :=
  match f with
  | create_pvc_fn => "create_pvc"
  | delete_pvc_fn => "delete_pvc"
  | list_pvcs_fn => "list_pvcs"
  | patch_pvc_fn => "patch_pvc"
  end.

Definition signature (f : function) : list parameter :=
  match f with
  | create_pvc_fn =>
      [Param "pvc" None; Param "namespace" None;
       Param "dry_run" (Some (VBool false))]
  | delete_pvc_fn => [Param "pvc" None; Param "namespace" None]
  | list_pvcs_fn => [Param "namespace" None]
  | patch_pvc_fn =>
      [Param "name" None; Param "namespace" None;
       Param "pvc" None; Param "auth" (Some (VBool true))]
  end.

(** Keyword arguments of a call, as written at the call site. *)
Fixpoint kw_lookup (k : string) (kwargs : list (string * value)) : option value :=
  match kwargs with
  | [] => None
  | (k', v) :: kwargs' => if decide (k = k') then Some v else kw_lookup k kwargs'
  end.

Fixpoint kw_remove (k : string) (kwargs : list (string * value))
  : list (string * value) :=
  match kwargs with
  | [] => []
  | (k', v) :: kwargs' =>
      if decide (k = k') then kw_remove k kwargs'
      else (k', v) :: kw_remove k kwargs'
  end.

(** Python's binding of the arguments of a call to the parameters: first
    by position, then by keyword, then from the defaults; the values come
    back in parameter order.  A call that does not fit raises [TypeError].
    For a call with one fault the fault reported is Python's; with
    several, Python may report another of them than this walk along the
    parameters does (and a keyword written twice is a syntax error there,
    while here the first one counts). *)
Fixpoint bind_arguments (fname : string) (params : list parameter)
    (args : list value) (kwargs : list (string * value)) : result (list value) :=
  match params, args with
  | [], [] =>
      match kwargs with
      | [] => Ok []
      | (k, _) :: _ => Err (TypeError (UnexpectedKeyword fname k))
      end
  | [], _ :: _ => Err (TypeError (TooManyPositional fname))
  | p :: params', a :: args' =>
      match kw_lookup (param_name p) kwargs with
      | Some _ => Err (TypeError (MultipleValues fname (param_name p)))
      | None => vs ← bind_arguments fname params' args' kwargs; Ok (a :: vs)
      end
  | p :: params', [] =>
      match kw_lookup (param_name p) kwargs, param_default p with
      | Some v, _ =>
          vs ← bind_arguments fname params' [] (kw_remove (param_name p) kwargs);
          Ok (v :: vs)
      | None, Some d => vs ← bind_arguments fname params' [] kwargs; Ok (d :: vs)
      | None, None => Err (TypeError (MissingArgument fname (param_name p)))
      end
  end.

Section Backend.

(** The cluster behind the Kubernetes API. *)
Variable Cluster : Type.

(** [authz.ensure_authorized] is not part of this tree.  It is taken as a
    check that reads the cluster and either returns ([None]) or raises
    ([Some e], for the gate [e] is [Unauthorized]). *)
Variable authz_check : access_request → Cluster → option exn.

(** [v1_core], the Kubernetes client: each call returns or raises, and
    leaves the cluster in some state. *)
Variable v1_core : adapter_call → Cluster → result value * Cluster.

Record world := World {
  cluster : Cluster;
  trace : list event
}.

(** Computations that read and change the world and may raise. *)
Definition M (A : Type) : Type := world → result A * world.

#[global] Instance M_ret : MRet M := λ A a w, (Ok a, w).
#[global] Instance M_bind : MBind M := λ A B k m w,
  match m w with
  | (Ok a, w') => k a w'
  | (Err e, w') => (Err e, w')
  end.

Definition raise {A} (e : exn) : M A := λ w, (Err e, w).

Definition lift {A} (r : result A) : M A := λ w, (r, w).

(** The trace is the model's record of what was called, in order. *)
Definition record (ev : event) : M unit :=
  λ w, (Ok tt, World (cluster w) (trace w ++ [ev])).

Definition review (request : access_request) : M unit :=
  λ w, match authz_check request (cluster w) with
       | None => (Ok tt, w)
       | Some e => (Err e, w)
       end.

Definition ensure_authorized (verb group version resource : string)
    (namespace : value) : M unit :=
  let request := AccessRequest verb group version resource namespace in
  record (GateCheck request);; review request.

Definition send (call : adapter_call) : M value :=
  λ w, let '(r, cluster') := v1_core call (cluster w) in
       (r, World cluster' (trace w)).

Definition adapter (call : adapter_call) : M value :=
  record (AdapterCall call);; send call.

Definition create_pvc (pvc namespace dry_run : value) : M value :=
  ensure_authorized "create" "" "v1" "persistentvolumeclaims" namespace;;
  adapter (create_namespaced_persistent_volume_claim
             namespace pvc (if truthy dry_run then VStr "All" else VNone)).

Definition delete_pvc (pvc namespace : value) : M value :=
  ensure_authorized "delete" "" "v1" "persistentvolumeclaims" namespace;;
  adapter (delete_namespaced_persistent_volume_claim pvc namespace).

Definition list_pvcs (namespace : value) : M value :=
  ensure_authorized "list" "" "v1" "persistentvolumeclaims" namespace;;
  adapter (list_namespaced_persistent_volume_claim namespace).

Definition patch_pvc (name namespace pvc auth : value) : M value :=
  (if truthy auth
   then ensure_authorized "patch" "" "v1" "persistentvolumeclaims" namespace
   else mret tt);;
  adapter (patch_namespaced_persistent_volume_claim name namespace pvc).

(** The body of [f] on arguments bound in parameter order
    ([bind_arguments] returns one value for each parameter, so the last
    case is never reached through [call]). *)
Definition body (f : function) (bound : list value) : M value :=
  match f, bound with
  | create_pvc_fn, [pvc; namespace; dry_run] => create_pvc pvc namespace dry_run
  | delete_pvc_fn, [pvc; namespace] => delete_pvc pvc namespace
  | list_pvcs_fn, [namespace] => list_pvcs namespace
  | patch_pvc_fn, [name; namespace; pvc; auth] => patch_pvc name namespace pvc auth
  | _, _ => raise (TypeError (TooManyPositional (function_name f)))
  end.

(** A call of [f] with positional and keyword arguments. *)
Definition call (f : function) (args : list value)
    (kwargs : list (string * value)) : M value :=
  bound ← lift (bind_arguments (function_name f) (signature f) args kwargs);
  body f bound.

End Backend.

Arguments World {Cluster} cluster trace.
Arguments cluster {Cluster} w.
Arguments trace {Cluster} w.
Arguments create_pvc {Cluster} authz_check v1_core pvc namespace dry_run.
Arguments delete_pvc {Cluster} authz_check v1_core pvc namespace.
Arguments list_pvcs {Cluster} authz_check v1_core namespace.
Arguments patch_pvc {Cluster} authz_check v1_core name namespace pvc auth.
Arguments call {Cluster} authz_check v1_core f args kwargs.

(** The three operations the gate always guards, with their arguments. *)
Inductive guarded_operation :=
  | CreatePvc (pvc namespace dry_run : value)
  | DeletePvc (pvc namespace : value)
  | ListPvcs (namespace : value).

Definition run_guarded {Cluster} authz_check v1_core (op : guarded_operation)
  : M Cluster value :=
  match op with
  | CreatePvc pvc namespace dry_run =>
      create_pvc authz_check v1_core pvc namespace dry_run
  | DeletePvc pvc namespace => delete_pvc authz_check v1_core pvc namespace
  | ListPvcs namespace => list_pvcs authz_check v1_core namespace
  end.

(** The call an operation makes on [v1_core]. *)
Definition adapter_call_of (op : guarded_operation) : adapter_call :=
  match op with
  | CreatePvc pvc namespace dry_run =>
      create_namespaced_persistent_volume_claim
        namespace pvc (if truthy dry_run then VStr "All" else VNone)
  | DeletePvc pvc namespace =>
      delete_namespaced_persistent_volume_claim pvc namespace
  | ListPvcs namespace => list_namespaced_persistent_volume_claim namespace
  end.

(** The outcome of a run that records [before], then calls the adapter
    once with [c]: the adapter's result and cluster as they come back. *)
Definition through_adapter {Cluster}
    (v1_core : adapter_call → Cluster → result value * Cluster)
    (before : list event) (c : adapter_call) (w : world Cluster)
  : result value * world Cluster :=
  ((v1_core c (cluster w)).1,
   World (v1_core c (cluster w)).2 (trace w ++ before ++ [AdapterCall c])).

(** The outcome of a run that the gate stops with [e]. *)
Definition stopped_at_gate {Cluster} (request : access_request) (e : exn)
    (w : world Cluster) : result value * world Cluster :=
  (Err e, World (cluster w) (trace w ++ [GateCheck request])).

(** The (verb, group, version, resource, namespace) tuple of an operation. *)
Definition request_of (op : guarded_operation) : access_request :=
  match op with
  | CreatePvc _ namespace _ =>
      AccessRequest "create" "" "v1" "persistentvolumeclaims" namespace
  | DeletePvc _ namespace =>
      AccessRequest "delete" "" "v1" "persistentvolumeclaims" namespace
  | ListPvcs namespace =>
      AccessRequest "list" "" "v1" "persistentvolumeclaims" namespace
  end.

(** *** A stub backend, used to exercise the statements *)

(** The stub cluster is the list of adapter calls that reached it. *)
Definition stub_v1_core (call : adapter_call) (reached : list adapter_call)
  : result value * list adapter_call :=
  (Ok (VObject "v1-response"), reached ++ [call]).

Definition deny_all (request : access_request) (reached : list adapter_call)
  : option exn :=
  Some (Unauthorized "forbidden").

Definition allow_all (request : access_request) (reached : list adapter_call)
  : option exn :=
  None.

(** Modelled from the spec: [authz.ensure_authorized] (section 4.1), which
    is not in this tree: the gate short-circuits to allow when the
    disable-auth flag is set, and otherwise raises [Unauthorized] unless
    the access review allows the request. *)
Definition spec_gate {Cluster} (disable_auth : bool)
    (review : access_request → Cluster → bool)
    (request : access_request) (c : Cluster) : option exn :=
  if disable_auth then None
  else if review request c then None
  else Some (Unauthorized "forbidden").

End Pvc.

(** ** volumes/backend/entrypoint.py *)

Module Entrypoint.

(** [config.DevConfig] and [config.ProdConfig]; an instance is stood for by
    its class. *)
Inductive config_class := DevConfig | ProdConfig.

(** The values of the members of the enum [config.BackendMode], which is
    not part of this tree. *)
Record backend_mode_values := BackendMode {
  DEVELOPMENT : string;
  DEVELOPMENT_FULL : string;
  PRODUCTION : string;
  PRODUCTION_FULL : string
}.

(** The members of an enum have pairwise different values (members written
    with the value of an earlier one are aliases of it); what the
    statements below need of that is that no development value is a
    production value. *)
Definition distinct_modes (bm : backend_mode_values) : Prop :=
  DEVELOPMENT bm ≠ PRODUCTION bm
  ∧ DEVELOPMENT bm ≠ PRODUCTION_FULL bm
  ∧ DEVELOPMENT_FULL bm ≠ PRODUCTION bm
  ∧ DEVELOPMENT_FULL bm ≠ PRODUCTION_FULL bm.

(** A dict with its keys in insertion order: setting a key that is there
    replaces the value and keeps the place. *)
Fixpoint dict_set {V} (k : string) (v : V) (d : list (string * V))
  : list (string * V) :=
  match d with
  | [] => [(k, v)]
  | (k', v') :: d' =>
      if decide (k = k') then (k, v) :: d' else (k', v') :: dict_set k v d'
  end.

Fixpoint dict_get {V} (k : string) (d : list (string * V)) : option V :=
  match d with
  | [] => None
  | (k', v) :: d' => if decide (k = k') then Some v else dict_get k d'
  end.

(** The dict literal [config_classes], filled in the order written. *)
Definition config_classes (bm : backend_mode_values)
  : list (string * config_class) :=
  dict_set (PRODUCTION_FULL bm) ProdConfig
    (dict_set (PRODUCTION bm) ProdConfig
       (dict_set (DEVELOPMENT_FULL bm) DevConfig
          (dict_set (DEVELOPMENT bm) DevConfig []))).

(** [repr] of the items of a list of strings, for strings of printable
    characters without quote or backslash; Python writes other strings
    with other quotes or with escapes, so this is the text of the message
    only for such keys, as the upstream values are. *)
Fixpoint repr_items (keys : list string) : string :=
  match keys with
  | [] => ""
  | [k] => "'" +:+ k +:+ "'"
  | k :: keys' => "'" +:+ k +:+ "', " +:+ repr_items keys'
  end.

(** The message of the [RuntimeError]. *)
Definition not_implemented (mode : string) (keys : list string) : string :=
  "Backend mode '" +:+ mode +:+ "' is not implemented. Choose one of ["
  +:+ repr_items keys +:+ "]".

Definition get_config (bm : backend_mode_values) (mode : string)
  : result config_class :=
  match dict_get mode (config_classes bm) with
  | None =>
      Err (RuntimeError (not_implemented mode (config_classes bm).*1))
  | Some cfg_class => Ok cfg_class
  end.

Inductive ui_flavor := default_flavor | rok_flavor.

(** What [default.create_app] and [rok.create_app] are given, with the
    [PREFIX] set on the config. *)
Record app := App {
  flavor : ui_flavor;
  APP_NAME : string;
  cfg : config_class;
  PREFIX : string
}.

(** The statements at module level, from the environment to [app]. *)
Definition load (bm : backend_mode_values) (environ : gmap string string)
  : result app :=
  let APP_NAME := getenv environ "APP_NAME" "Volumes Web App" in
  let BACKEND_MODE := getenv environ "BACKEND_MODE" (PRODUCTION bm) in
  let UI_FLAVOR := getenv environ "UI_FLAVOR" "default" in
  let PREFIX := getenv environ "APP_PREFIX" "/" in
  cfg ← get_config bm BACKEND_MODE;
  if decide (UI_FLAVOR = "default") then Ok (App default_flavor APP_NAME cfg PREFIX)
  else if decide (UI_FLAVOR = "rok") then Ok (App rok_flavor APP_NAME cfg PREFIX)
  else Err (SystemExit 1).

(** The exit status of the interpreter when loading stops: the code of a
    [SystemExit], and 1 for any other exception that nothing catches. *)
Definition exit_status {A} (r : result A) : option Z :=
  match r with
  | Ok _ => None
  | Err (SystemExit code) => Some code
  | Err _ => Some 1%Z
  end.

(** The values the enum has upstream. *)
Definition upstream_modes : backend_mode_values :=
  BackendMode "dev" "development" "prod" "production".

End Entrypoint.

(** ** tensorboards/backend/app/routes/get.py *)

Module Tensorboards.

Section Route.

(** Custom resources as the API returns them, the parsed form the
    frontend gets, the response object, and the world behind [api]. *)
Variable Item : Type.
Variable Parsed : Type.
Variable Response : Type.
Variable World : Type.

(** What [api.list_custom_rsrc] returns: a mapping with the key [items]. *)
Record resource_list := ResourceList {
  kind : string;
  items : list Item
}.

(** [api.list_custom_rsrc], [utils.parse_tensorboard] and
    [api.success_response] are not part of this tree. *)
Variable list_custom_rsrc :
  string → string → string → string → World → result resource_list * World.
Variable parse_tensorboard : Item → result Parsed.
Variable success_response : string → list Parsed → Response.

(** [[f(x) for x in xs]]: in order, stopping at the first exception. *)
Fixpoint comprehension {A B} (f : A → result B) (xs : list A) : result (list B) :=
  match xs with
  | [] => Ok []
  | x :: xs' => y ← f x; ys ← comprehension f xs'; Ok (y :: ys)
  end.

Definition get_tensorboards (namespace : string) (w : World)
  : result Response * World :=
  let '(r, w') :=
    list_custom_rsrc "tensorboard.kubeflow.org" "v1alpha1" "tensorboards"
                     namespace w in
  (tensorboards ← r;
   content ← comprehension parse_tensorboard (items tensorboards);
   Ok (success_response "tensorboards" content),
   w').

End Route.

Arguments ResourceList {Item} kind items.
Arguments items {Item} r.
Arguments get_tensorboards {Item Parsed Response World}
  list_custom_rsrc parse_tensorboard success_response namespace w.

(** *** A stub backend, used to exercise the statements *)

Definition stub_list (g v r ns : string) (w : unit)
  : result (resource_list string) * unit :=
  (Ok (ResourceList "TensorboardList" ["tb-a"; "tb-b"; "tb-c"]), w).

Definition stub_parse (item : string) : result (string * nat) :=
  Ok (item, String.length item).

End Tensorboards.

(** ** releasing/update-manifests-images.py *)

Module Releasing.

(** An entry of a kustomization [images:] sequence is a YAML mapping, loaded
    as a dict: keys to scalars.  A value of this type has no identity: a
    list of them stands for a sequence whose positions are pairwise
    different objects, and the statements over such lists speak of those
    sequences only.  A sequence where a YAML anchor and its alias make two
    positions one object is modelled in [ReleasingObjects], where the
    entries sit in a store and the sequence holds their addresses. *)
Abbreviation image := (gmap string string).

(** The dicts of an application's ["images"] list in the [applications]
    table: always the two keys [name] and [newName]. *)
Record target_image := TargetImage {
  target_name : string;
  target_newName : string
}.

Record application := Application {
  app_name : string;
  app_kustomization : string;
  app_images : list target_image
}.

Definition applications : list application := [
  Application "Jupyter Web App"
    "components/crud-web-apps/jupyter/manifests/base/kustomization.yaml"
    [TargetImage "ghcr.io/kubeflow/notebooks/jupyter-web-app"
                 "ghcr.io/kubeflow/notebooks/jupyter-web-app"];
  Application "Tensorboards Web App"
    "components/crud-web-apps/tensorboards/manifests/base/kustomization.yaml"
    [TargetImage "ghcr.io/kubeflow/kubeflow/tensorboards-web-app"
                 "ghcr.io/kubeflow/kubeflow/tensorboards-web-app"];
  Application "Volumes Web App"
    "components/crud-web-apps/volumes/manifests/base/kustomization.yaml"
    [TargetImage "ghcr.io/kubeflow/kubeflow/volumes-web-app"
                 "ghcr.io/kubeflow/kubeflow/volumes-web-app"];
  Application "Notebook Controller"
    "components/notebook-controller/config/base/kustomization.yaml"
    [TargetImage "ghcr.io/kubeflow/kubeflow/notebook-controller"
                 "ghcr.io/kubeflow/kubeflow/notebook-controller"];
  Application "PVC Viewer Controller"
    "components/pvcviewer-controller/config/base/kustomization.yaml"
    [TargetImage "ghcr.io/kubeflow/kubeflow/pvcviewer-controller"
                 "ghcr.io/kubeflow/kubeflow/pvcviewer-controller"];
  Application "Tensorboard Controller"
    "components/tensorboard-controller/config/base/kustomization.yaml"
    [TargetImage "ghcr.io/kubeflow/kubeflow/tensorboard-controller"
                 "ghcr.io/kubeflow/kubeflow/tensorboard-controller"]
].

(** [image["newName"] = target_image["newName"]; image["newTag"] = tag] *)
Definition retag (t : target_image) (tag : string) (img : image) : image :=
  <["newTag" := tag]> (<["newName" := target_newName t]> img).

(** The dict literal appended when no entry was found. *)
Definition new_entry (t : target_image) (tag : string) : image :=
  <["newTag" := tag]>
    (<["newName" := target_newName t]> {["name" := target_name t]}).

(** [for image in images: if image["name"] == target_image["name"]: ...; break]
    The result is the flag [found] and the list after the loop;
    [image["name"]] on an entry without that key raises [KeyError]. *)
Fixpoint scan_images (images : list image) (t : target_image) (tag : string)
  : result (bool * list image) :=
  match images with
  | [] => Ok (false, [])
  | img :: rest =>
      match img !! "name" with
      | None => Err (KeyError "name")
      | Some n =>
          if decide (n = target_name t)
          then Ok (true, retag t tag img :: rest)
          else '(found, rest') ← scan_images rest t tag;
               Ok (found, img :: rest')
      end
  end.

(** The body of [for target_image in application["images"]]. *)
Definition update_target_image (images : list image) (t : target_image)
    (tag : string) : result (list image) :=
  '(found, images') ← scan_images images t tag;
  if (found : bool) then Ok images'
  else Ok (images' ++ [new_entry t tag]).

(** [for target_image in application["images"]: ...] *)
Fixpoint update_images (images : list image) (targets : list target_image)
    (tag : string) : result (list image) :=
  match targets with
  | [] => Ok images
  | t :: targets' =>
      images' ← update_target_image images t tag;
      update_images images' targets' tag
  end.

(** A loaded kustomization file, of the shape kustomize files have: the
    document is a mapping, and its [images] key, when present, holds a
    sequence of mappings, no two positions of it the same object; the
    other top-level keys are not looked at.  Documents of another shape
    are outside this type: an empty file (the script stops at
    [kustomize.get]), an [images] key that is null or no sequence, and
    an entry that is no mapping (the script stops with [TypeError]). *)
Record kustomization := Kustomization {
  k_images : option (list image);
  k_others : gmap string string
}.

(** [images = kustomize.get("images", []); ...; kustomize["images"] = images] *)
Definition update_kustomize (kustomize : kustomization)
    (app : application) (tag : string) : result kustomization :=
  images ← update_images (default [] (k_images kustomize)) (app_images app) tag;
  Ok (Kustomization (Some images) (k_others kustomize)).

(** The files the script reads and writes, by path, as loaded documents
    ([yaml.load] and [yaml.dump] are taken as inverse to each other, and
    a path either has no file or a file that loads as a [kustomization];
    files that cannot be read or parsed, or load as something else, are
    outside the model).  The result is the exception that stopped the
    run, if any, and the files as the run leaves them. *)
Fixpoint update_manifests_images (apps : list application) (tag : string)
    (files : gmap string kustomization)
  : option exn * gmap string kustomization :=
  match apps with
  | [] => (None, files)
  | app :: apps' =>
      match files !! app_kustomization app with
      | None => (Some (FileNotFoundError (app_kustomization app)), files)
      | Some kustomize =>
          match update_kustomize kustomize app tag with
          | Err e => (Some e, files)
          | Ok kustomize' =>
              update_manifests_images apps' tag
                (<[app_kustomization app := kustomize']> files)
          end
      end
  end.

(** *** Specification-side vocabulary for the image list *)

(** Every entry carries the [name] key the loop reads. *)
Definition well_formed (images : list image) : Prop :=
  Forall (λ img : image, is_Some (img !! "name")) images.

(** Some entry of the list is called [n]. *)
Definition present (n : string) (images : list image) : Prop :=
  Exists (λ img : image, img !! "name" = Some n) images.

(** The names occurring in a list. *)
Definition nameset (images : list image) : gset string :=
  list_to_set (omap (λ img : image, img !! "name") images).

(** The entry at index [i] is the first one called [n]. *)
Definition first_named (n : string) (i : nat) (images : list image) : Prop :=
  (∃ img : image, images !! i = Some img ∧ img !! "name" = Some n)
  ∧ n ∉ nameset (take i images).

(** [f n] applied to the first entry of each name [n] not yet in [seen]. *)
Fixpoint first_seen (f : string → image → image) (seen : gset string)
    (images : list image) : list image :=
  match images with
  | [] => []
  | img :: rest =>
      match img !! "name" with
      | Some n =>
          if decide (n ∈ seen) then img :: first_seen f seen rest
          else f n img :: first_seen f ({[n]} ∪ seen) rest
      | None => img :: first_seen f seen rest
      end
  end.

(** The last target of the list called [n]. *)
Fixpoint last_target (targets : list target_image) (n : string)
  : option target_image :=
  match targets with
  | [] => None
  | t :: targets' =>
      match last_target targets' n with
      | Some t' => Some t'
      | None => if decide (target_name t = n) then Some t else None
      end
  end.

(** What a run over [targets] does to the first entry called [n]. *)
Definition retag_all (tag : string) (targets : list target_image)
    (n : string) (img : image) : image :=
  foldl (λ img t, if decide (target_name t = n) then retag t tag img else img)
        img targets.

(** A bare entry for [n] is added at the end unless one is there. *)
Definition ensure (n : string) (images : list image) : list image :=
  if decide (present n images) then images
  else images ++ [{["name" := n]}].

Definition ensure_all (targets : list target_image) (images : list image)
  : list image :=
  foldl (λ images t, ensure (target_name t) images) images targets.

(** [f] never renames an entry. *)
Definition name_preserving (f : string → image → image) : Prop :=
  ∀ n (img : image), img !! "name" = Some n → f n img !! "name" = Some n.

(** What one target does to the first entry called [n]. *)
Definition retag_one (tag : string) (t : target_image)
    (n : string) (img : image) : image :=
  if decide (target_name t = n) then retag t tag img else img.

(** *** A sample kustomization, used to exercise the statements below *)

Definition jupyter : target_image :=
  TargetImage "ghcr.io/kubeflow/notebooks/jupyter-web-app"
              "ghcr.io/kubeflow/notebooks/jupyter-web-app".

Definition sample_images : list image := [
  <["name" := "busybox"]> (<["newTag" := "1.36"]> ∅);
  <["name" := "ghcr.io/kubeflow/notebooks/jupyter-web-app"]>
    (<["newName" := "docker.io/kubeflownotebookswg/jupyter-web-app"]>
       (<["newTag" := "v1"]> ∅));
  <["name" := "ghcr.io/kubeflow/notebooks/jupyter-web-app"]>
    (<["digest" := "sha256:0000"]> ∅)
].

Definition sample_kustomize : kustomization :=
  Kustomization (Some sample_images) (<["namespace" := "kubeflow"]> ∅).

(** Closes [well_formed l] for a list written out entry by entry. *)
Ltac all_named :=
  unfold well_formed; simpl; repeat constructor; by eexists.

End Releasing.

(** ** releasing/update-manifests-images.py: the script as a whole *)

Module ReleasingScript.
Import Releasing.

(** [main], from the tag that [parse_args] read off the command line. *)
Definition main (tag : string) (files : gmap string kustomization)
  : option exn * gmap string kustomization :=
  update_manifests_images applications tag files.

(** [sys.exit(main())]: [main] returns [None], which is status 0; an
    exception that nothing catches ends the interpreter with status 1. *)
Definition script_status (stopped : option exn) : Z :=
  match stopped with
  | None => 0%Z
  | Some (SystemExit code) => code
  | Some _ => 1%Z
  end.

(** The targets of the applications that name the file [path], in the
    order the script meets them. *)
Fixpoint targets_for (path : string) (apps : list application)
  : list target_image :=
  match apps with
  | [] => []
  | app :: apps' =>
      if decide (app_kustomization app = path)
      then app_images app ++ targets_for path apps'
      else targets_for path apps'
  end.

(** Every file that is there has image entries that all carry a name. *)
Definition files_well_formed (files : gmap string kustomization) : Prop :=
  ∀ path kustomize, files !! path = Some kustomize →
    well_formed (default [] (k_images kustomize)).

(** Every application finds its kustomization file. *)
Definition files_present (apps : list application)
    (files : gmap string kustomization) : Prop :=
  ∀ app, app ∈ apps → is_Some (files !! app_kustomization app).

(** The names of a list of targets. *)
Definition target_names (targets : list target_image) : gset string :=
  list_to_set (target_name <$> targets).

(** *** Samples, used to exercise the statements *)

Definition jupyter_app : application :=
  Application "Jupyter Web App"
    "components/crud-web-apps/jupyter/manifests/base/kustomization.yaml"
    [jupyter].

Definition tensorboards_app : application :=
  Application "Tensorboards Web App"
    "components/crud-web-apps/tensorboards/manifests/base/kustomization.yaml"
    [TargetImage "ghcr.io/kubeflow/kubeflow/tensorboards-web-app"
                 "ghcr.io/kubeflow/kubeflow/tensorboards-web-app"].

Definition sample_files : gmap string kustomization :=
  {[ app_kustomization jupyter_app := sample_kustomize ]}.

(** A checkout in which each of the six files has no [images] key yet. *)
Definition bare_checkout : gmap string kustomization :=
  list_to_map ((λ app, (app_kustomization app, Kustomization None ∅))
                 <$> applications).

(** A target for the first entry of [sample_images]. *)
Definition busybox : target_image :=
  TargetImage "busybox" "docker.io/library/busybox".

End ReleasingScript.

(** ** tensorboards route: failing stubs, used to exercise the statements *)

Module TensorboardsStubs.
Import Tensorboards.

(** A backend whose gate turns the caller away. *)
Definition stub_list_denied (g v r ns : string) (w : unit)
  : result (resource_list string) * unit :=
  (Err (Unauthorized "forbidden"), w).

(** A parser that finds a key missing in the item [tb-b]. *)
Definition stub_parse_strict (item : string) : result (string * nat) :=
  if decide (item = "tb-b") then Err (KeyError "spec")
  else Ok (item, String.length item).

End TensorboardsStubs.

(** ** releasing/update-manifests-images.py: the loop on shared objects *)

Module ReleasingObjects.
Import Releasing.

(** The loop assigns to keys of the dict object itself
    ([image["newName"] = ...]), and a loaded sequence may hold one object
    at several positions (a YAML anchor and its aliases).  Here the dict
    objects live in a store, by address, and a sequence is a list of
    addresses: positions with one address are one object. *)
Definition object_at (store : gmap nat image) (r : nat) : image :=
  store !!! r.

Definition name_at (store : gmap nat image) (r : nat) : option string :=
  object_at store r !! "name".

(** [for image in images: if image["name"] == target_image["name"]: ...]
    on addresses: the flag [found], and the store after the assignments. *)
Fixpoint scan_refs (refs : list nat) (t : target_image) (tag : string)
    (store : gmap nat image) : result (bool * gmap nat image) :=
  match refs with
  | [] => Ok (false, store)
  | r :: refs' =>
      match name_at store r with
      | None => Err (KeyError "name")
      | Some n =>
          if decide (n = target_name t)
          then Ok (true, <[r := retag t tag (object_at store r)]> store)
          else scan_refs refs' t tag store
      end
  end.

(** The body of the loop over the targets; [images.append({...})] puts a
    new object, at a new address, behind the sequence. *)
Definition update_target_ref (refs : list nat) (t : target_image)
    (tag : string) (store : gmap nat image)
  : result (list nat * gmap nat image) :=
  '(found, store') ← scan_refs refs t tag store;
  if (found : bool) then Ok (refs, store')
  else let r := fresh (dom store) in
       Ok (refs ++ [r], <[r := new_entry t tag]> store).

Fixpoint update_refs (refs : list nat) (targets : list target_image)
    (tag : string) (store : gmap nat image)
  : result (list nat * gmap nat image) :=
  match targets with
  | [] => Ok (refs, store)
  | t :: targets' =>
      '(refs', store') ← update_target_ref refs t tag store;
      update_refs refs' targets' tag store'
  end.

(** The sequence as it reads, position by position. *)
Definition view (refs : list nat) (store : gmap nat image) : list image :=
  object_at store <$> refs.

Definition view_of (r : result (list nat * gmap nat image))
  : result (list image) :=
  '(refs, store) ← r; Ok (view refs store).

(** Every position holds an object that carries a name. *)
Definition named_refs (refs : list nat) (store : gmap nat image) : Prop :=
  Forall (λ r, is_Some (name_at store r)) refs.

(** Some position of [refs] holds an object called [n]. *)
Definition present_ref (n : string) (refs : list nat)
    (store : gmap nat image) : Prop :=
  Exists (λ r, name_at store r = Some n) refs.

(** Position [i] holds the object at [r], called [n], and no position
    before it holds an object of that name. *)
Definition first_ref (n : string) (i r : nat) (refs : list nat)
    (store : gmap nat image) : Prop :=
  refs !! i = Some r
  ∧ name_at store r = Some n
  ∧ ∀ j r', j < i → refs !! j = Some r' → name_at store r' ≠ Some n.

(** *** Samples: one object at two positions, and two equal objects *)

Definition duplicate : image :=
  <["name" := "ghcr.io/kubeflow/notebooks/jupyter-web-app"]>
    (<["newTag" := "v1"]> ∅).

Definition aliased_store : gmap nat image := {[ 0 := duplicate ]}.

Definition separate_store : gmap nat image :=
  <[0 := duplicate]> (<[1 := duplicate]> ∅).

(** An entry without a name between two positions of one object. *)
Definition nameless_store : gmap nat image :=
  <[0 := duplicate]> (<[1 := <["newTag" := "v1"]> ∅]> ∅).

End ReleasingObjects.

(** * Properties *)

(** ** The settings *)

Module SettingsFacts.
Import Settings.

(** X18. Whatever the environment holds, the flag is false: a bound
    method is never equal to a string, so no value of [APP_DISABLE_AUTH]
    sets it. *)
Lemma DISABLE_AUTH_false environ : DISABLE_AUTH environ = false.
Proof. reflexivity. Qed.

(** C2 (the code at the input the claim is about).  With
    [APP_DISABLE_AUTH] set to [true] the flag [DISABLE_AUTH] is false. *)
Theorem DISABLE_AUTH_true_in_environ :
  DISABLE_AUTH {["APP_DISABLE_AUTH" := "true"]} = false.
Proof. reflexivity. Qed.

(** With the gate of the specification reading this flag, setting the
    variable does not open the gate: a request the access review denies
    is still stopped, before the adapter. *)
Lemma gate_not_bypassed op reached :
  Pvc.run_guarded
    (Pvc.spec_gate (DISABLE_AUTH {["APP_DISABLE_AUTH" := "true"]})
                   (λ _ _, false))
    Pvc.stub_v1_core op (Pvc.World reached [])
  = Pvc.stopped_at_gate (Pvc.request_of op) (Unauthorized "forbidden")
      (Pvc.World reached []).
Proof. by destruct op. Qed.

End SettingsFacts.

(** ** The PVC operations *)

Module PvcFacts.
Import Pvc.

Section Backend.

Context {Cluster : Type}.
Variable authz_check : access_request → Cluster → option exn.
Variable v1_core : adapter_call → Cluster → result value * Cluster.

Lemma ensure_authorized_run verb group version resource namespace
    (w : world Cluster) :
  ensure_authorized Cluster authz_check verb group version resource namespace w
  = let request := AccessRequest verb group version resource namespace in
    (match authz_check request (cluster w) with
     | None => Ok tt
     | Some e => Err e
     end,
     World (cluster w) (trace w ++ [GateCheck request])).
Proof.
  unfold ensure_authorized, review, record, mbind, M_bind. simpl.
  by destruct (authz_check _ _).
Qed.

Lemma adapter_run c (w : world Cluster) :
  adapter Cluster v1_core c w = through_adapter v1_core [] c w.
Proof.
  unfold adapter, send, record, through_adapter, mbind, M_bind. simpl.
  by destruct (v1_core c (cluster w)).
Qed.

(** A gate check followed by an adapter call. *)
Lemma gate_then_adapter verb group version resource namespace c
    (w : world Cluster) :
  (ensure_authorized Cluster authz_check verb group version resource namespace;;
   adapter Cluster v1_core c) w
  = let request := AccessRequest verb group version resource namespace in
    match authz_check request (cluster w) with
    | Some e => stopped_at_gate request e w
    | None => through_adapter v1_core [GateCheck request] c w
    end.
Proof.
  unfold mbind at 1. unfold M_bind. rewrite ensure_authorized_run. simpl.
  destruct (authz_check _ _); [done|].
  rewrite adapter_run. unfold through_adapter. simpl.
  by rewrite <- app_assoc.
Qed.

Lemma run_guarded_eq op (w : world Cluster) :
  run_guarded authz_check v1_core op w
  = match authz_check (request_of op) (cluster w) with
    | Some e => stopped_at_gate (request_of op) e w
    | None =>
        through_adapter v1_core [GateCheck (request_of op)]
                        (adapter_call_of op) w
    end.
Proof. destruct op; apply gate_then_adapter. Qed.

Lemma call_bound f args kwargs bound (w : world Cluster) :
  bind_arguments (function_name f) (signature f) args kwargs = Ok bound →
  call authz_check v1_core f args kwargs w
  = body Cluster authz_check v1_core f bound w.
Proof. intros H. unfold call, lift, mbind, M_bind. by rewrite H. Qed.

Lemma call_unbound f args kwargs e (w : world Cluster) :
  bind_arguments (function_name f) (signature f) args kwargs = Err e →
  call authz_check v1_core f args kwargs w = (Err e, w).
Proof. intros H. unfold call, lift, mbind, M_bind. by rewrite H. Qed.

Lemma patch_pvc_run name namespace pvc auth (w : world Cluster) :
  patch_pvc authz_check v1_core name namespace pvc auth w
  = let request :=
      AccessRequest "patch" "" "v1" "persistentvolumeclaims" namespace in
    let c := patch_namespaced_persistent_volume_claim name namespace pvc in
    if truthy auth
    then match authz_check request (cluster w) with
         | Some e => stopped_at_gate request e w
         | None => through_adapter v1_core [GateCheck request] c w
         end
    else through_adapter v1_core [] c w.
Proof.
  unfold patch_pvc. destruct (truthy auth).
  - apply gate_then_adapter.
  - unfold mbind at 1. unfold M_bind. simpl. apply adapter_run.
Qed.

(** C1. For [create_pvc], [delete_pvc] and [list_pvcs], on any arguments
    and in any world: the first thing the run records is the gate check
    for the operation's (verb, group, version, resource, namespace), an
    adapter call is recorded only behind it; and when the gate raises,
    the run raises the same exception with the gate check as the only new
    record and the cluster as it was. *)
Theorem guarded_operations_gate_first op (w : world Cluster) :
  (∃ rest,
     trace (run_guarded authz_check v1_core op w).2
     = trace w ++ GateCheck (request_of op) :: rest
     ∧ (rest = [] ∨ rest = [AdapterCall (adapter_call_of op)]))
  ∧ (∀ e, authz_check (request_of op) (cluster w) = Some e →
       run_guarded authz_check v1_core op w
       = (Err e, World (cluster w) (trace w ++ [GateCheck (request_of op)]))).
Proof.
  rewrite run_guarded_eq. split.
  - destruct (authz_check _ _); simpl; eauto.
  - intros e ->. done.
Qed.

(** C3, as amended.  Of the four functions only [patch_pvc] has the
    parameter [auth], with default [True].  Called with [auth=False] it
    calls the adapter without a gate check; called with [auth=True] or
    without [auth] it does the gate check first and calls the adapter
    only when the gate returns.  [create_pvc], [delete_pvc] and
    [list_pvcs] have no parameter of that name. *)
Theorem patch_pvc_auth_switch name namespace pvc (w : world Cluster) :
  let request :=
    AccessRequest "patch" "" "v1" "persistentvolumeclaims" namespace in
  let c := patch_namespaced_persistent_volume_claim name namespace pvc in
  let gated :=
    match authz_check request (cluster w) with
    | Some e => stopped_at_gate request e w
    | None => through_adapter v1_core [GateCheck request] c w
    end in
  Param "auth" (Some (VBool true)) ∈ signature patch_pvc_fn
  ∧ call authz_check v1_core patch_pvc_fn
         [name; namespace; pvc] [("auth", VBool false)] w
    = through_adapter v1_core [] c w
  ∧ call authz_check v1_core patch_pvc_fn
         [name; namespace; pvc] [("auth", VBool true)] w
    = gated
  ∧ call authz_check v1_core patch_pvc_fn [name; namespace; pvc] [] w = gated
  ∧ Forall (λ f, "auth" ∉ param_name <$> signature f)
           [create_pvc_fn; delete_pvc_fn; list_pvcs_fn].
Proof.
  simpl. split; [set_solver|].
  split; [|split; [|split]].
  - erewrite call_bound by reflexivity. simpl. by rewrite patch_pvc_run.
  - erewrite call_bound by reflexivity. simpl. by rewrite patch_pvc_run.
  - erewrite call_bound by reflexivity. simpl. by rewrite patch_pvc_run.
  - repeat constructor; simpl; set_solver.
Qed.

(** C4. When the gate lets the request through: [create_pvc] called with
    [dry_run=True] (by keyword or by position) calls the adapter's create
    with the dry-run mode ["All"], called with [dry_run=False] or without
    [dry_run] it calls it with [None]; what the adapter returns (or
    raises) is the outcome of the call, unchanged. *)
Theorem create_pvc_dry_run_mode pvc namespace (flag : bool) (w : world Cluster) :
  let request :=
    AccessRequest "create" "" "v1" "persistentvolumeclaims" namespace in
  let create mode :=
    through_adapter v1_core [GateCheck request]
      (create_namespaced_persistent_volume_claim namespace pvc mode) w in
  authz_check request (cluster w) = None →
  call authz_check v1_core create_pvc_fn
       [pvc; namespace] [("dry_run", VBool flag)] w
  = create (if flag then VStr "All" else VNone)
  ∧ call authz_check v1_core create_pvc_fn [pvc; namespace; VBool flag] [] w
    = create (if flag then VStr "All" else VNone)
  ∧ call authz_check v1_core create_pvc_fn [pvc; namespace] [] w
    = create VNone.
Proof.
  simpl. intros Hgate. repeat split.
  - erewrite call_bound by reflexivity. simpl. unfold create_pvc.
    rewrite gate_then_adapter. simpl. by rewrite Hgate.
  - erewrite call_bound by reflexivity. simpl. unfold create_pvc.
    rewrite gate_then_adapter. simpl. by rewrite Hgate.
  - erewrite call_bound by reflexivity. simpl. unfold create_pvc.
    rewrite gate_then_adapter. simpl. by rewrite Hgate.
Qed.

End Backend.

(** *** On the stub backend *)

Example create_pvc_denied :
  call deny_all stub_v1_core create_pvc_fn [VObject "pvc"; VStr "kubeflow-user"] []
       (World [] [])
  = (Err (Unauthorized "forbidden"),
     World [] [GateCheck (AccessRequest "create" "" "v1" "persistentvolumeclaims"
                                         (VStr "kubeflow-user"))]).
Proof. reflexivity. Qed.

Example create_pvc_dry_run_allowed :
  call allow_all stub_v1_core create_pvc_fn
       [VObject "pvc"; VStr "kubeflow-user"] [("dry_run", VBool true)]
       (World [] [])
  = (Ok (VObject "v1-response"),
     World [create_namespaced_persistent_volume_claim
              (VStr "kubeflow-user") (VObject "pvc") (VStr "All")]
           [GateCheck (AccessRequest "create" "" "v1" "persistentvolumeclaims"
                                     (VStr "kubeflow-user"));
            AdapterCall (create_namespaced_persistent_volume_claim
                           (VStr "kubeflow-user") (VObject "pvc") (VStr "All"))]).
Proof. reflexivity. Qed.

Lemma guarded_operations_gate_first_witness :
  run_guarded deny_all stub_v1_core
    (DeletePvc (VStr "data") (VStr "kubeflow-user")) (World [] [])
  = (Err (Unauthorized "forbidden"),
     World [] [GateCheck (AccessRequest "delete" "" "v1"
                            "persistentvolumeclaims" (VStr "kubeflow-user"))]).
Proof.
  exact (proj2 (guarded_operations_gate_first deny_all stub_v1_core
                  (DeletePvc (VStr "data") (VStr "kubeflow-user"))
                  (World [] []))
               (Unauthorized "forbidden") eq_refl).
Defined.

(** C3, against the claim as it stands: [create_pvc] has no parameter
    [auth], with or without default; a call that passes [auth=False]
    raises [TypeError], and neither the gate nor the adapter is reached. *)
Lemma create_pvc_takes_no_auth :
  ("auth" ∉ param_name <$> signature create_pvc_fn)
  ∧ call deny_all stub_v1_core create_pvc_fn
         [VObject "pvc"; VStr "kubeflow-user"] [("auth", VBool false)]
         (World [] [])
    = (Err (TypeError (UnexpectedKeyword "create_pvc" "auth")), World [] []).
Proof. split; [simpl; set_solver | reflexivity]. Qed.

Lemma create_pvc_dry_run_mode_witness :
  allow_all (AccessRequest "create" "" "v1" "persistentvolumeclaims"
               (VStr "kubeflow-user")) [] = None
  ∧ call allow_all stub_v1_core create_pvc_fn
         [VObject "pvc"; VStr "kubeflow-user"] [("dry_run", VBool true)]
         (World [] [])
    = through_adapter stub_v1_core
        [GateCheck (AccessRequest "create" "" "v1" "persistentvolumeclaims"
                      (VStr "kubeflow-user"))]
        (create_namespaced_persistent_volume_claim
           (VStr "kubeflow-user") (VObject "pvc") (VStr "All"))
        (World [] []).
Proof.
  split; [reflexivity|].
  exact (proj1 (create_pvc_dry_run_mode allow_all stub_v1_core
                  (VObject "pvc") (VStr "kubeflow-user") true (World [] [])
                  eq_refl)).
Defined.

End PvcFacts.

(** ** The entry point of the volumes backend *)

Module EntrypointFacts.
Import Entrypoint.

Lemma dict_get_set {V} k k' (v : V) d :
  dict_get k (dict_set k' v d)
  = if decide (k = k') then Some v else dict_get k d.
Proof.
  induction d as [|[k0 v0] d IH]; simpl.
  - done.
  - destruct (decide (k' = k0)) as [->|Hne]; simpl.
    + by destruct (decide (k = k0)).
    + rewrite IH. destruct (decide (k = k0)) as [->|]; [|done].
      by rewrite decide_False.
Qed.

Lemma get_config_other bm mode :
  mode ∉ [DEVELOPMENT bm; DEVELOPMENT_FULL bm; PRODUCTION bm; PRODUCTION_FULL bm] →
  get_config bm mode
  = Err (RuntimeError (not_implemented mode (config_classes bm).*1)).
Proof.
  intros Hm. unfold get_config.
  assert (dict_get mode (config_classes bm) = None) as ->; [|done].
  unfold config_classes. rewrite !dict_get_set. simpl.
  repeat case_decide; try done; exfalso; apply Hm; set_solver.
Qed.

Lemma load_bad_mode bm environ mode :
  environ !! "BACKEND_MODE" = Some mode →
  mode ∉ [DEVELOPMENT bm; DEVELOPMENT_FULL bm; PRODUCTION bm; PRODUCTION_FULL bm] →
  load bm environ
  = Err (RuntimeError (not_implemented mode (config_classes bm).*1)).
Proof.
  intros He Hm. unfold load, getenv. rewrite He. simpl.
  by rewrite get_config_other.
Qed.

Lemma load_bad_flavor bm environ ui :
  environ !! "UI_FLAVOR" = Some ui → ui ≠ "default" → ui ≠ "rok" →
  load bm environ = Err (SystemExit 1)
  ∨ ∃ msg, load bm environ = Err (RuntimeError msg).
Proof.
  intros He H1 H2. unfold load, getenv. rewrite He. simpl.
  destruct (get_config bm _) as [c|e] eqn:E; simpl.
  - left. by rewrite !decide_False.
  - right. unfold get_config in E.
    destruct (dict_get _ _); [done|]. injection E as <-. eauto.
Qed.

(** C7. With no development value of the enum equal to a production
    value: [get_config] returns [DevConfig] for the two development modes
    and [ProdConfig] for the two production modes; for any other mode
    string it raises ([RuntimeError]), and loading the module with that
    [BACKEND_MODE] ends with that exception, exit status 1; loading it
    with a [UI_FLAVOR] other than ["default"] and ["rok"] ends with a
    non-zero exit status. *)
Theorem get_config_by_mode bm :
  distinct_modes bm →
  get_config bm (DEVELOPMENT bm) = Ok DevConfig
  ∧ get_config bm (DEVELOPMENT_FULL bm) = Ok DevConfig
  ∧ get_config bm (PRODUCTION bm) = Ok ProdConfig
  ∧ get_config bm (PRODUCTION_FULL bm) = Ok ProdConfig
  ∧ (∀ mode,
       mode ∉ [DEVELOPMENT bm; DEVELOPMENT_FULL bm;
               PRODUCTION bm; PRODUCTION_FULL bm] →
       (∃ msg, get_config bm mode = Err (RuntimeError msg))
       ∧ ∀ environ, environ !! "BACKEND_MODE" = Some mode →
           (∃ msg, load bm environ = Err (RuntimeError msg))
           ∧ exit_status (load bm environ) = Some 1%Z)
  ∧ (∀ environ ui,
       environ !! "UI_FLAVOR" = Some ui → ui ≠ "default" → ui ≠ "rok" →
       ∃ code, exit_status (load bm environ) = Some code ∧ code ≠ 0%Z).
Proof.
  intros (H1 & H2 & H3 & H4). unfold get_config at 1 2 3 4.
  unfold config_classes. rewrite !dict_get_set. simpl.
  split; [|split; [|split; [|split; [|split]]]].
  - repeat case_decide; congruence.
  - repeat case_decide; congruence.
  - repeat case_decide; congruence.
  - repeat case_decide; congruence.
  - intros mode Hm. pose proof (get_config_other bm mode Hm) as Hg.
    split; [eauto|].
    intros environ He. rewrite (load_bad_mode bm environ mode He Hm). eauto.
  - intros environ ui He Hd Hr.
    destruct (load_bad_flavor bm environ ui He Hd Hr) as [->|[msg ->]];
      by exists 1%Z.
Qed.

Lemma get_config_by_mode_witness :
  distinct_modes upstream_modes
  ∧ get_config upstream_modes "dev" = Ok DevConfig
  ∧ get_config upstream_modes "production" = Ok ProdConfig
  ∧ exit_status (load upstream_modes {["BACKEND_MODE" := "staging"]})
    = Some 1%Z.
Proof.
  assert (distinct_modes upstream_modes) as Hd by (by repeat split).
  pose proof (get_config_by_mode upstream_modes Hd)
    as (Hdev & _ & _ & Hprod & Hother & _).
  split; [exact Hd|]. split; [exact Hdev|]. split; [exact Hprod|].
  refine (proj2 (proj2 (Hother "staging" _) {["BACKEND_MODE" := "staging"]} _)).
  - simpl. rewrite !not_elem_of_cons. repeat split; try done.
    apply not_elem_of_nil.
  - reflexivity.
Defined.

Example load_default :
  load upstream_modes ∅
  = Ok (App default_flavor "Volumes Web App" ProdConfig "/").
Proof. reflexivity. Qed.

Example get_config_unknown_mode :
  get_config upstream_modes "staging"
  = Err (RuntimeError
           ("Backend mode 'staging' is not implemented. Choose one of "
            +:+ "['dev', 'development', 'prod', 'production']")).
Proof. reflexivity. Qed.

Example load_unknown_flavor :
  load upstream_modes {["UI_FLAVOR" := "kale"]} = Err (SystemExit 1).
Proof. reflexivity. Qed.

End EntrypointFacts.

(** ** The tensorboards route *)

Module TensorboardsFacts.
Import Tensorboards.

Lemma comprehension_Ok {A B} (f : A → result B) xs ys :
  comprehension f xs = Ok ys ↔ Forall2 (λ x y, f x = Ok y) xs ys.
Proof.
  revert ys. induction xs as [|x xs IH]; intros ys; simpl.
  - split.
    + intros [= <-]. constructor.
    + intros ->%Forall2_nil_inv_l. done.
  - split.
    + destruct (f x) as [y|e] eqn:Ex; simpl; [|done].
      destruct (comprehension f xs) as [ys'|e] eqn:Exs; simpl; [|done].
      intros [= <-]. constructor; [done|]. by apply IH.
    + intros (y & ys' & Hx & Hxs & ->)%Forall2_cons_inv_l.
      rewrite Hx. simpl. apply IH in Hxs. rewrite Hxs. done.
Qed.

Lemma comprehension_total {A B} (f : A → result B) xs :
  Forall (λ x, ∃ y, f x = Ok y) xs → ∃ ys, comprehension f xs = Ok ys.
Proof.
  induction 1 as [|x xs [y Hy] _ [ys Hys]]; simpl; [by eexists|].
  rewrite Hy. simpl. rewrite Hys. simpl. by eexists.
Qed.

(** C8. When the backend returns a list of items and every item parses,
    the route answers with the success response for ["tensorboards"]
    over a content list of the same length whose [i]-th element is the
    parse of the [i]-th item. *)
Theorem get_tensorboards_in_order {Item Parsed Response World : Type}
    (list_custom_rsrc :
       string → string → string → string → World
       → result (resource_list Item) * World)
    (parse_tensorboard : Item → result Parsed)
    (success_response : string → list Parsed → Response)
    namespace w tensorboards w' :
  list_custom_rsrc "tensorboard.kubeflow.org" "v1alpha1" "tensorboards"
                   namespace w = (Ok tensorboards, w') →
  Forall (λ item, ∃ parsed, parse_tensorboard item = Ok parsed)
         (items tensorboards) →
  ∃ content,
    get_tensorboards list_custom_rsrc parse_tensorboard success_response
                     namespace w
    = (Ok (success_response "tensorboards" content), w')
    ∧ length content = length (items tensorboards)
    ∧ ∀ i item, items tensorboards !! i = Some item →
        ∃ parsed, content !! i = Some parsed
                  ∧ parse_tensorboard item = Ok parsed.
Proof.
  intros Hlist Hparse. unfold get_tensorboards. rewrite Hlist. simpl.
  destruct (comprehension_total _ _ Hparse) as [content Hc].
  exists content. rewrite Hc. simpl. split; [done|].
  apply comprehension_Ok in Hc. split.
  - symmetry. by eapply Forall2_length.
  - intros i item Hi.
    destruct (Forall2_lookup_l _ _ _ _ _ Hc Hi) as (parsed & ? & ?). eauto.
Qed.

Lemma get_tensorboards_in_order_witness :
  ∃ content,
    get_tensorboards stub_list stub_parse (λ k c, (k, c)) "kubeflow-user" tt
    = (Ok ("tensorboards", content), tt)
    ∧ length content = 3
    ∧ ∀ i item, ["tb-a"; "tb-b"; "tb-c"] !! i = Some item →
        ∃ parsed, content !! i = Some parsed ∧ stub_parse item = Ok parsed.
Proof.
  refine (get_tensorboards_in_order stub_list stub_parse (λ k c, (k, c))
            "kubeflow-user" tt
            (ResourceList "TensorboardList" ["tb-a"; "tb-b"; "tb-c"]) tt
            eq_refl _).
  simpl. repeat constructor; by eexists.
Defined.

Example get_tensorboards_stub :
  get_tensorboards stub_list stub_parse (λ k c, (k, c)) "kubeflow-user" tt
  = (Ok ("tensorboards", [("tb-a", 4); ("tb-b", 4); ("tb-c", 4)]), tt).
Proof. reflexivity. Qed.

End TensorboardsFacts.

(** ** The manifest image updater *)

Module ReleasingFacts.
Import Releasing.

Lemma retag_name t tag (img : image) :
  retag t tag img !! "name" = img !! "name".
Proof. unfold retag. by rewrite !lookup_insert_ne. Qed.

Lemma retag_retag t t' tag (img : image) :
  retag t' tag (retag t tag img) = retag t' tag img.
Proof.
  unfold retag. apply map_eq. intros k.
  destruct (decide (k = "newTag")) as [->|Hk1].
  - by rewrite !lookup_insert_eq.
  - rewrite !(lookup_insert_ne _ "newTag" k) by done.
    destruct (decide (k = "newName")) as [->|Hk2].
    + by rewrite !lookup_insert_eq.
    + by rewrite !lookup_insert_ne.
Qed.

Lemma retag_other t tag (img : image) k :
  k ≠ "newName" → k ≠ "newTag" → retag t tag img !! k = img !! k.
Proof. intros ??. unfold retag. by rewrite !lookup_insert_ne. Qed.

Lemma new_entry_retag t tag :
  new_entry t tag = retag t tag {["name" := target_name t]}.
Proof. reflexivity. Qed.

(** *** [last_target] and [retag_all] *)

Lemma retag_all_last tag targets n (img : image) :
  retag_all tag targets n img
  = from_option (λ t, retag t tag img) img (last_target targets n).
Proof.
  unfold retag_all. revert img.
  induction targets as [|t targets IH]; intros img; simpl; [done|].
  rewrite IH. destruct (last_target targets n) as [t'|]; simpl.
  - case_decide; [apply retag_retag | done].
  - by case_decide.
Qed.

Lemma last_target_elem targets n t :
  last_target targets n = Some t → t ∈ targets ∧ target_name t = n.
Proof.
  induction targets as [|u targets IH]; simpl; [done|].
  destruct (last_target targets n) as [t'|].
  - intros [= ->]. destruct IH as [??]; [done|]. split; [by right | done].
  - case_decide; [|done]. intros [= ->]. split; [by left | done].
Qed.

Lemma last_target_None targets n :
  last_target targets n = None ↔ ∀ t, t ∈ targets → target_name t ≠ n.
Proof.
  induction targets as [|u targets IH]; simpl.
  - split; [|done]. intros _ t Ht. by apply elem_of_nil in Ht.
  - destruct (last_target targets n) as [t'|] eqn:E.
    + split; [done|]. intros H. apply last_target_elem in E as [E1 E2].
      exfalso. eapply H; [by right | done].
    + case_decide as Hu.
      * split; [done|]. intros H. exfalso. eapply H; [by left | done].
      * split; [|done]. intros _ t [->|Ht]%elem_of_cons; [done|].
        by apply IH.
Qed.

Lemma last_target_NoDup targets t :
  NoDup (target_name <$> targets) → t ∈ targets →
  last_target targets (target_name t) = Some t.
Proof.
  induction targets as [|u targets IH]; simpl.
  - intros _ Ht. by apply elem_of_nil in Ht.
  - intros [Hu Hnd]%NoDup_cons [->|Ht]%elem_of_cons.
    + assert (last_target targets (target_name u) = None) as ->.
      { apply last_target_None. intros t' Ht' E. apply Hu.
        rewrite <- E. by apply list_elem_of_fmap_2. }
      by rewrite decide_True.
    + by rewrite IH.
Qed.

Lemma retag_all_name tag targets n (img : image) :
  retag_all tag targets n img !! "name" = img !! "name".
Proof.
  rewrite retag_all_last. destruct (last_target targets n); simpl; [|done].
  apply retag_name.
Qed.

Lemma retag_all_idem tag targets n (img : image) :
  retag_all tag targets n (retag_all tag targets n img)
  = retag_all tag targets n img.
Proof.
  rewrite !retag_all_last. destruct (last_target targets n); simpl; [|done].
  apply retag_retag.
Qed.

(** *** [nameset], [present], [well_formed] *)

Lemma nameset_nil : nameset [] = ∅.
Proof. reflexivity. Qed.

Lemma nameset_cons_Some (img : image) rest n :
  img !! "name" = Some n → nameset (img :: rest) = {[n]} ∪ nameset rest.
Proof. intros H. unfold nameset. simpl. by rewrite H. Qed.

Lemma nameset_cons_None (img : image) rest :
  img !! "name" = None → nameset (img :: rest) = nameset rest.
Proof. intros H. unfold nameset. simpl. by rewrite H. Qed.

Lemma elem_of_nameset n images : n ∈ nameset images ↔ present n images.
Proof.
  unfold nameset, present. rewrite elem_of_list_to_set, list_elem_of_omap.
  rewrite Exists_exists. naive_solver.
Qed.

Lemma nameset_app l l' : nameset (l ++ l') = nameset l ∪ nameset l'.
Proof.
  unfold nameset. rewrite omap_app, list_to_set_app_L. done.
Qed.

Lemma present_app n l l' : present n (l ++ l') ↔ present n l ∨ present n l'.
Proof. unfold present. apply Exists_app. Qed.

Lemma well_formed_app l l' :
  well_formed (l ++ l') ↔ well_formed l ∧ well_formed l'.
Proof. unfold well_formed. apply Forall_app. Qed.

(** *** [first_seen] *)

Lemma first_seen_length f seen l : length (first_seen f seen l) = length l.
Proof.
  revert seen. induction l as [|img l IH]; intros seen; simpl; [done|].
  destruct (img !! "name"); [case_decide|]; simpl; by rewrite IH.
Qed.

Lemma first_seen_ext f g seen l :
  (∀ n (img : image), img !! "name" = Some n → f n img = g n img) →
  first_seen f seen l = first_seen g seen l.
Proof.
  intros Hfg. revert seen.
  induction l as [|img l IH]; intros seen; simpl; [done|].
  destruct (img !! "name") as [n|] eqn:E; [case_decide|]; rewrite ?IH; try done.
  by rewrite (Hfg n img E).
Qed.

Lemma first_seen_names f seen l :
  name_preserving f →
  Forall2 (λ img img' : image, img' !! "name" = img !! "name")
          l (first_seen f seen l).
Proof.
  intros Hf. revert seen.
  induction l as [|img l IH]; intros seen; simpl; [constructor|].
  destruct (img !! "name") as [n|] eqn:E; [case_decide|];
    constructor; auto.
  rewrite E. by apply Hf.
Qed.

Lemma first_seen_nameset f seen l :
  name_preserving f → nameset (first_seen f seen l) = nameset l.
Proof.
  intros Hf. revert seen.
  induction l as [|img l IH]; intros seen; simpl; [done|].
  destruct (img !! "name") as [n|] eqn:E; [case_decide|].
  - by rewrite !(nameset_cons_Some _ _ n), IH.
  - rewrite !(nameset_cons_Some _ _ n), ?IH; auto.
  - by rewrite !nameset_cons_None, IH.
Qed.

Lemma first_seen_present f seen l n :
  name_preserving f → present n (first_seen f seen l) ↔ present n l.
Proof.
  intros Hf. by rewrite <- !elem_of_nameset, first_seen_nameset.
Qed.

Lemma first_seen_well_formed f seen l :
  name_preserving f → well_formed l → well_formed (first_seen f seen l).
Proof.
  intros Hf Hwf. unfold well_formed in *.
  eapply Forall2_Forall_r; [by apply (first_seen_names f seen) |].
  eapply Forall_impl; [exact Hwf|]. simpl. intros img [n Hn] img' ->. eauto.
Qed.

Lemma first_seen_app f seen l l' :
  name_preserving f →
  first_seen f seen (l ++ l')
  = first_seen f seen l ++ first_seen f (nameset l ∪ seen) l'.
Proof.
  intros Hf. revert seen.
  induction l as [|img l IH]; intros seen; simpl.
  - rewrite nameset_nil. by rewrite (left_id_L ∅ (∪)).
  - destruct (img !! "name") as [n|] eqn:E; [case_decide|]; simpl; rewrite IH.
    + rewrite (nameset_cons_Some _ _ n) by done.
      replace (({[n]} ∪ nameset l) ∪ seen) with (nameset l ∪ seen)
        by set_solver.
      done.
    + rewrite (nameset_cons_Some _ _ n) by done.
      replace (({[n]} ∪ nameset l) ∪ seen) with (nameset l ∪ ({[n]} ∪ seen))
        by set_solver.
      done.
    + by rewrite nameset_cons_None.
Qed.

Lemma first_seen_lookup f seen l i (img : image) n :
  l !! i = Some img → img !! "name" = Some n →
  first_seen f seen l !! i
  = Some (if decide (n ∈ nameset (take i l) ∪ seen) then img else f n img).
Proof.
  revert seen i.
  induction l as [|x l IH]; intros seen i Hi Hn; [done|].
  destruct i as [|i]; simpl in *.
  - injection Hi as ->. rewrite Hn, nameset_nil.
    destruct (decide (n ∈ seen)); simpl.
    + rewrite decide_True by set_solver. done.
    + rewrite decide_False by set_solver. done.
  - destruct (x !! "name") as [m|] eqn:E; [case_decide|]; simpl.
    + rewrite (IH _ _ Hi Hn), (nameset_cons_Some _ _ m) by done.
      f_equal. apply decide_ext. set_solver.
    + rewrite (IH _ _ Hi Hn), (nameset_cons_Some _ _ m) by done.
      f_equal. apply decide_ext. set_solver.
    + by rewrite (IH _ _ Hi Hn), nameset_cons_None.
Qed.

Lemma first_seen_compose f g seen l :
  name_preserving g →
  first_seen f seen (first_seen g seen l)
  = first_seen (λ n img, f n (g n img)) seen l.
Proof.
  intros Hg. revert seen.
  induction l as [|img l IH]; intros seen; simpl; [done|].
  destruct (img !! "name") as [n|] eqn:E; [case_decide|]; simpl.
  - rewrite E, decide_True by done. by rewrite IH.
  - rewrite (Hg n img E), decide_False by done. by rewrite IH.
  - rewrite E. by rewrite IH.
Qed.

Lemma first_seen_id f seen l :
  (∀ n (img : image), img !! "name" = Some n → f n img = img) →
  first_seen f seen l = l.
Proof.
  intros Hf. revert seen.
  induction l as [|img l IH]; intros seen; simpl; [done|].
  destruct (img !! "name") as [n|] eqn:E; [case_decide|]; rewrite IH; try done.
  by rewrite (Hf n img E).
Qed.

Lemma first_seen_idle f seen l :
  (∀ n, n ∈ nameset l → n ∈ seen) → first_seen f seen l = l.
Proof.
  revert seen. induction l as [|img l IH]; intros seen Hs; simpl; [done|].
  destruct (img !! "name") as [n|] eqn:E.
  - rewrite (nameset_cons_Some _ _ n) in Hs by done.
    rewrite decide_True by set_solver. rewrite IH; [done|]. set_solver.
  - rewrite nameset_cons_None in Hs by done. by rewrite IH.
Qed.

(** *** One pass of the inner loop *)

Lemma retag_one_eq tag t (img : image) :
  retag_one tag t (target_name t) img = retag t tag img.
Proof. unfold retag_one. by rewrite decide_True. Qed.

Lemma retag_one_ne tag t n (img : image) :
  target_name t ≠ n → retag_one tag t n img = img.
Proof. intros H. unfold retag_one. by rewrite decide_False. Qed.

Lemma retag_one_preserving tag t : name_preserving (retag_one tag t).
Proof.
  intros n img H. unfold retag_one. case_decide; [|done].
  by rewrite retag_name.
Qed.

Lemma retag_all_preserving tag targets : name_preserving (retag_all tag targets).
Proof. intros n img H. by rewrite retag_all_name. Qed.

Lemma retag_all_cons tag t targets n (img : image) :
  retag_all tag (t :: targets) n img
  = retag_all tag targets n (retag_one tag t n img).
Proof. reflexivity. Qed.

Lemma first_seen_retag_one_seen tag t seen l :
  target_name t ∈ seen → first_seen (retag_one tag t) seen l = l.
Proof.
  revert seen. induction l as [|img l IH]; intros seen Hs; simpl; [done|].
  destruct (img !! "name") as [n|] eqn:E; [case_decide|]; rewrite IH; try done.
  - rewrite retag_one_ne; [done|]. by intros <-.
  - set_solver.
Qed.

Lemma scan_images_spec l t tag seen :
  well_formed l → target_name t ∉ seen →
  scan_images l t tag
  = Ok (bool_decide (present (target_name t) l),
        first_seen (retag_one tag t) seen l).
Proof.
  intros Hwf. revert seen.
  induction Hwf as [|img l [n Hn] Hwf IH]; intros seen Hs; simpl.
  - reflexivity.
  - rewrite Hn. destruct (decide (n = target_name t)) as [->|Hne].
    + rewrite decide_False by done.
      rewrite bool_decide_eq_true_2 by (by left).
      rewrite retag_one_eq.
      rewrite first_seen_retag_one_seen by set_solver. done.
    + assert (bool_decide (present (target_name t) (img :: l))
              = bool_decide (present (target_name t) l)) as ->.
      { apply bool_decide_ext. unfold present. rewrite Exists_cons.
        split; [|by right]. intros [?|?]; [congruence | done]. }
      destruct (decide (n ∈ seen)).
      * by rewrite (IH seen Hs).
      * rewrite (IH ({[n]} ∪ seen)) by set_solver. simpl.
        rewrite retag_one_ne by done. done.
Qed.

Lemma stub_name n : ({["name" := n]} : image) !! "name" = Some n.
Proof. apply lookup_singleton_eq. Qed.

Lemma update_target_image_spec l t tag :
  well_formed l →
  update_target_image l t tag
  = Ok (first_seen (retag_one tag t) ∅ (ensure (target_name t) l)).
Proof.
  intros Hwf. unfold update_target_image, ensure.
  rewrite (scan_images_spec l t tag ∅) by set_solver. simpl.
  destruct (decide (present (target_name t) l)) as [Hp|Hp].
  - by rewrite bool_decide_eq_true_2.
  - rewrite bool_decide_eq_false_2 by done.
    rewrite first_seen_app by apply retag_one_preserving. simpl.
    rewrite stub_name, decide_False.
    + by rewrite retag_one_eq.
    + rewrite elem_of_union, elem_of_nameset. set_solver.
Qed.

(** *** [ensure] and [ensure_all] *)

Lemma ensure_well_formed n l : well_formed l → well_formed (ensure n l).
Proof.
  intros Hwf. unfold ensure. case_decide; [done|].
  apply well_formed_app. split; [done|].
  constructor; [|constructor]. rewrite stub_name. eauto.
Qed.

Lemma ensure_present n l : present n (ensure n l).
Proof.
  unfold ensure. case_decide; [done|].
  apply present_app. right. constructor. apply stub_name.
Qed.

Lemma ensure_mono m n l : present m l → present m (ensure n l).
Proof.
  intros H. unfold ensure. case_decide; [done|]. apply present_app. by left.
Qed.

Lemma ensure_first_seen tag t u l :
  present (target_name t) l →
  ensure u (first_seen (retag_one tag t) ∅ l)
  = first_seen (retag_one tag t) ∅ (ensure u l).
Proof.
  intros Hp. unfold ensure.
  destruct (decide (present u l)) as [Hu|Hu].
  - rewrite decide_True; [done|].
    by apply first_seen_present; [apply retag_one_preserving|].
  - rewrite decide_False.
    2:{ by rewrite first_seen_present by apply retag_one_preserving. }
    rewrite first_seen_app by apply retag_one_preserving. simpl.
    rewrite stub_name, decide_False.
    + rewrite retag_one_ne; [done|]. by intros <-.
    + rewrite elem_of_union, elem_of_nameset. set_solver.
Qed.

Lemma ensure_all_first_seen tag t targets l :
  present (target_name t) l →
  ensure_all targets (first_seen (retag_one tag t) ∅ l)
  = first_seen (retag_one tag t) ∅ (ensure_all targets l).
Proof.
  unfold ensure_all. revert l.
  induction targets as [|u targets IH]; intros l Hp; simpl; [done|].
  rewrite ensure_first_seen by done. apply IH. by apply ensure_mono.
Qed.

Lemma ensure_all_well_formed targets l :
  well_formed l → well_formed (ensure_all targets l).
Proof.
  unfold ensure_all. revert l.
  induction targets as [|u targets IH]; intros l Hwf; simpl; [done|].
  by apply IH, ensure_well_formed.
Qed.

Lemma ensure_all_mono m targets l :
  present m l → present m (ensure_all targets l).
Proof.
  unfold ensure_all. revert l.
  induction targets as [|u targets IH]; intros l Hp; simpl; [done|].
  by apply IH, ensure_mono.
Qed.

Lemma ensure_all_present targets l t :
  t ∈ targets → present (target_name t) (ensure_all targets l).
Proof.
  revert l. induction targets as [|u targets IH]; intros l Ht.
  - by apply elem_of_nil in Ht.
  - apply elem_of_cons in Ht as [->|Ht]; simpl.
    + apply (ensure_all_mono _ targets), ensure_present.
    + by apply IH.
Qed.

Lemma ensure_all_saturated targets l :
  (∀ t, t ∈ targets → present (target_name t) l) → ensure_all targets l = l.
Proof.
  unfold ensure_all. revert l.
  induction targets as [|u targets IH]; intros l Hs; simpl; [done|].
  assert (ensure (target_name u) l = l) as ->.
  { unfold ensure. rewrite decide_True; [done|]. apply Hs. by left. }
  apply IH. intros t Ht. apply Hs. by right.
Qed.

(** The entries [ensure_all] adds: bare entries for target names that the
    list did not have. *)
Lemma ensure_all_extra targets l :
  ∃ extra, ensure_all targets l = l ++ extra
    ∧ Forall (λ s : image, ∃ t, t ∈ targets
                ∧ s = {["name" := target_name t]}
                ∧ ¬ present (target_name t) l) extra.
Proof.
  unfold ensure_all. revert l.
  induction targets as [|u targets IH]; intros l; simpl.
  - exists []. by rewrite app_nil_r.
  - destruct (IH (ensure (target_name u) l)) as (extra & -> & Hex).
    unfold ensure in *. destruct (decide (present (target_name u) l)) as [Hu|Hu].
    + exists extra. split; [done|].
      eapply Forall_impl; [exact Hex|]. simpl.
      intros s (t & Ht & -> & Hnp). exists t. split; [by right | done].
    + exists ({["name" := target_name u]} :: extra).
      rewrite <- app_assoc. split; [done|]. constructor.
      * exists u. split; [by left | done].
      * eapply Forall_impl; [exact Hex|]. simpl.
        intros s (t & Ht & -> & Hnp). exists t. split; [by right|].
        split; [done|]. intros Hp. apply Hnp, present_app. by left.
Qed.

(** *** The loop over the targets, in closed form *)

Lemma update_images_closed l targets tag :
  well_formed l →
  update_images l targets tag
  = Ok (first_seen (retag_all tag targets) ∅ (ensure_all targets l)).
Proof.
  revert l. induction targets as [|t targets IH]; intros l Hwf; simpl.
  - by rewrite first_seen_id.
  - rewrite update_target_image_spec by done. simpl.
    rewrite IH.
    2:{ apply first_seen_well_formed; [apply retag_one_preserving|].
        by apply ensure_well_formed. }
    rewrite ensure_all_first_seen by apply ensure_present.
    rewrite first_seen_compose by apply retag_one_preserving.
    done.
Qed.

(** *** Reading the result by index *)

Lemma present_first_named n l : present n l → ∃ i, first_named n i l.
Proof.
  unfold present, first_named.
  induction l as [|x l IH]; intros Hp; [by apply Exists_nil in Hp|].
  destruct (decide (x !! "name" = Some n)) as [Hx|Hx].
  - exists 0. simpl. split; [eauto|]. rewrite nameset_nil. set_solver.
  - apply Exists_cons in Hp as [?|Hp]; [done|].
    destruct (IH Hp) as (i & Hi & Hni). exists (S i). simpl.
    split; [done|]. destruct (x !! "name") as [m|] eqn:E.
    + rewrite (nameset_cons_Some _ _ m) by done.
      assert (m ≠ n) by congruence. set_solver.
    + by rewrite nameset_cons_None.
Qed.

Lemma first_named_lt n i l : first_named n i l → i < length l.
Proof. intros [(img & Hi & _) _]. by eapply lookup_lt_Some. Qed.

Lemma first_named_app n i l l' :
  first_named n i l → first_named n i (l ++ l').
Proof.
  intros Hf. pose proof (first_named_lt _ _ _ Hf) as Hlt.
  destruct Hf as [(img & Hi & Hn) Hni]. split.
  - exists img. split; [|done]. by apply lookup_app_l_Some.
  - rewrite take_app_le by lia. done.
Qed.

Lemma update_images_first l targets tag n i (img : image) :
  well_formed l → l !! i = Some img → img !! "name" = Some n →
  n ∉ nameset (take i l) →
  ∃ l', update_images l targets tag = Ok l'
    ∧ l' !! i = Some (retag_all tag targets n img).
Proof.
  intros Hwf Hi Hn Hni. rewrite update_images_closed by done.
  eexists. split; [done|].
  destruct (ensure_all_extra targets l) as (extra & -> & _).
  rewrite (first_seen_lookup _ _ _ i img n); [| by apply lookup_app_l_Some | done].
  rewrite take_app_le by (apply Nat.lt_le_incl; by eapply lookup_lt_Some).
  rewrite decide_False; [done|]. set_solver.
Qed.

Lemma update_images_later l targets tag n j (img : image) :
  well_formed l → l !! j = Some img → img !! "name" = Some n →
  n ∈ nameset (take j l) →
  ∃ l', update_images l targets tag = Ok l' ∧ l' !! j = Some img.
Proof.
  intros Hwf Hj Hn Hin. rewrite update_images_closed by done.
  eexists. split; [done|].
  destruct (ensure_all_extra targets l) as (extra & -> & _).
  rewrite (first_seen_lookup _ _ _ j img n); [| by apply lookup_app_l_Some | done].
  rewrite take_app_le by (apply Nat.lt_le_incl; by eapply lookup_lt_Some).
  rewrite decide_True; [done|]. set_solver.
Qed.

Lemma update_images_untargeted l targets tag j (img : image) :
  well_formed l → l !! j = Some img →
  (∀ t, t ∈ targets → img !! "name" ≠ Some (target_name t)) →
  ∃ l', update_images l targets tag = Ok l' ∧ l' !! j = Some img.
Proof.
  intros Hwf Hj Hnt.
  assert (is_Some (img !! "name")) as [n Hn].
  { unfold well_formed in Hwf. rewrite Forall_lookup in Hwf. by eapply Hwf. }
  destruct (decide (n ∈ nameset (take j l))) as [Hin|Hni].
  - by eapply update_images_later.
  - destruct (update_images_first l targets tag n j img) as (l' & Hl' & Hj');
      try done.
    exists l'. split; [done|]. rewrite Hj'. f_equal.
    rewrite retag_all_last.
    assert (last_target targets n = None) as ->; [|done].
    apply last_target_None. intros t Ht E. apply (Hnt t Ht). by rewrite Hn, E.
Qed.

Lemma first_seen_retag_one_absent tag t seen l :
  ¬ present (target_name t) l → first_seen (retag_one tag t) seen l = l.
Proof.
  unfold present. revert seen.
  induction l as [|img l IH]; intros seen Hnp; simpl; [done|].
  rewrite Exists_cons in Hnp.
  destruct (img !! "name") as [n|] eqn:E; [case_decide|]; rewrite IH; auto.
  rewrite retag_one_ne; [done|]. intros <-. auto.
Qed.

(** With no entry called after the target, one pass appends exactly the
    new entry. *)
Lemma update_target_image_append l t tag :
  well_formed l → ¬ present (target_name t) l →
  update_target_image l t tag = Ok (l ++ [new_entry t tag]).
Proof.
  intros Hwf Hnp. rewrite update_target_image_spec by done.
  unfold ensure. rewrite decide_False by done.
  rewrite first_seen_app by apply retag_one_preserving.
  rewrite first_seen_retag_one_absent by done. simpl.
  rewrite stub_name, decide_False.
  - by rewrite retag_one_eq.
  - rewrite elem_of_union, elem_of_nameset. set_solver.
Qed.

(** *** The statements of the specification *)

(** C5. For a list of entries that all carry a name, and targets with
    pairwise different names: the run succeeds; if some entry is called
    after the target, the first such entry ends up with [newTag] set to
    the tag and [newName] set to the target's [newName], in its place;
    if none is, the result holds, behind the old entries, the new entry
    made of the target's [name], its [newName] and the tag. *)
Theorem update_images_match_or_append images targets tag t :
  well_formed images → NoDup (target_name <$> targets) → t ∈ targets →
  ∃ images', update_images images targets tag = Ok images'
    ∧ (present (target_name t) images →
       ∃ i (img : image),
         images !! i = Some img
         ∧ img !! "name" = Some (target_name t)
         ∧ (target_name t ∉ nameset (take i images))
         ∧ images' !! i
           = Some (<["newTag" := tag]>
                     (<["newName" := target_newName t]> img)))
    ∧ (¬ present (target_name t) images →
       ∃ i, length images ≤ i
         ∧ images' !! i
           = Some (<["newTag" := tag]>
                     (<["newName" := target_newName t]>
                        {["name" := target_name t]}))).
Proof.
  intros Hwf Hnd Ht. rewrite update_images_closed by done.
  eexists. split; [done|].
  destruct (ensure_all_extra targets images) as (extra & Hex & Hextra).
  pose proof (last_target_NoDup targets t Hnd Ht) as Hlast.
  split.
  - intros Hp. destruct (present_first_named _ _ Hp) as (i & Hfirst).
    pose proof Hfirst as [(img & Hi & Hn) Hni].
    exists i, img. do 3 (split; [done|]).
    rewrite Hex.
    rewrite (first_seen_lookup _ _ _ i img (target_name t));
      [| by apply lookup_app_l_Some | done].
    rewrite take_app_le
      by (apply Nat.lt_le_incl; by eapply lookup_lt_Some).
    rewrite decide_False by set_solver.
    by rewrite retag_all_last, Hlast.
  - intros Hnp.
    pose proof (ensure_all_present targets images t Ht) as Hp.
    destruct (present_first_named _ _ Hp) as (i & (s & Hi & Hn) & Hni).
    rewrite Hex in Hi, Hni.
    assert (length images ≤ i) as Hle.
    { destruct (decide (length images ≤ i)) as [|Hlt]; [done|].
      exfalso. apply Hnp. unfold present. apply Exists_exists.
      exists s. split; [|done]. apply list_elem_of_lookup. exists i.
      by rewrite lookup_app_l in Hi by lia. }
    exists i. split; [done|]. rewrite Hex.
    rewrite (first_seen_lookup _ _ _ i s (target_name t)) by done.
    rewrite decide_False by set_solver.
    rewrite retag_all_last, Hlast. simpl. f_equal.
    assert (s = {["name" := target_name t]}) as ->; [|done].
    rewrite lookup_app_r in Hi by done.
    rewrite Forall_lookup in Hextra.
    destruct (Hextra _ _ Hi) as (t' & _ & -> & _).
    rewrite stub_name in Hn. by injection Hn as ->.
Qed.

(** C6. For a list of entries that all carry a name the run succeeds and
    its result is the old list, entry by entry in the old order and each
    under its old name, followed by the appended entries; an entry
    called after none of the targets is left as it was, and every
    appended entry is called after a target no old entry was called
    after. *)
Theorem update_images_frame images targets tag :
  well_formed images →
  ∃ updated appended,
    update_images images targets tag = Ok (updated ++ appended)
    ∧ length updated = length images
    ∧ (∀ i (img : image), images !! i = Some img →
         ∃ img' : image,
           updated !! i = Some img'
           ∧ img' !! "name" = img !! "name"
           ∧ ((∀ t, t ∈ targets → img !! "name" ≠ Some (target_name t)) →
              img' = img))
    ∧ Forall (λ s : image,
                ∃ t, t ∈ targets ∧ s !! "name" = Some (target_name t)
                     ∧ ¬ present (target_name t) images) appended.
Proof.
  intros Hwf. rewrite update_images_closed by done.
  destruct (ensure_all_extra targets images) as (extra & Hex & Hextra).
  rewrite Hex, first_seen_app by apply retag_all_preserving.
  eexists _, _. split; [done|]. split; [apply first_seen_length|]. split.
  - intros i img Hi.
    assert (is_Some (img !! "name")) as [n Hn].
    { unfold well_formed in Hwf. rewrite Forall_lookup in Hwf. by eapply Hwf. }
    rewrite (first_seen_lookup _ _ _ i img n) by done.
    eexists. split; [done|]. split.
    + case_decide; [done|]. by rewrite retag_all_name.
    + intros Hnt. case_decide; [done|]. rewrite retag_all_last.
      assert (last_target targets n = None) as ->; [|done].
      apply last_target_None. intros t Ht E. apply (Hnt t Ht).
      by rewrite Hn, E.
  - eapply Forall2_Forall_r.
    + apply first_seen_names, retag_all_preserving.
    + eapply Forall_impl; [exact Hextra|]. simpl.
      intros s (t & Ht & -> & Hnp) s' Hs'. exists t.
      split; [done|]. split; [|done]. by rewrite Hs', stub_name.
Qed.

(** C10. For a kustomization whose image entries all carry a name, the
    per-file transformation succeeds, and run again with the same tag on
    its own result it succeeds with that result unchanged. *)
Theorem update_kustomize_idempotent kustomize app tag :
  well_formed (default [] (k_images kustomize)) →
  ∃ once,
    update_kustomize kustomize app tag = Ok once
    ∧ update_kustomize once app tag = Ok once.
Proof.
  intros Hwf. unfold update_kustomize.
  rewrite update_images_closed by done. simpl.
  eexists. split; [done|]. simpl.
  set (l := default [] (k_images kustomize)) in *.
  set (targets := app_images app).
  assert (well_formed (ensure_all targets l)) as Hwf'
    by by apply ensure_all_well_formed.
  rewrite update_images_closed
    by (by apply first_seen_well_formed; [apply retag_all_preserving|]).
  rewrite ensure_all_saturated.
  - rewrite first_seen_compose by apply retag_all_preserving. simpl.
    do 2 f_equal. f_equal. apply first_seen_ext. intros n img _.
    apply retag_all_idem.
  - intros t Ht. apply first_seen_present; [apply retag_all_preserving|].
    by apply ensure_all_present.
Qed.

(** *** The sample kustomization *)

Lemma sample_images_well_formed : well_formed sample_images.
Proof. all_named. Qed.

Example sample_run :
  update_images sample_images [jupyter] "v2"
  = Ok [ <["name" := "busybox"]> (<["newTag" := "1.36"]> ∅);
         <["name" := "ghcr.io/kubeflow/notebooks/jupyter-web-app"]>
           (<["newName" := "ghcr.io/kubeflow/notebooks/jupyter-web-app"]>
              (<["newTag" := "v2"]> ∅));
         <["name" := "ghcr.io/kubeflow/notebooks/jupyter-web-app"]>
           (<["digest" := "sha256:0000"]> ∅) ].
Proof. vm_compute. reflexivity. Qed.

Example sample_run_append :
  update_images [ <["name" := "busybox"]> ∅ ] [jupyter] "v2"
  = Ok [ <["name" := "busybox"]> ∅;
         <["name" := "ghcr.io/kubeflow/notebooks/jupyter-web-app"]>
           (<["newName" := "ghcr.io/kubeflow/notebooks/jupyter-web-app"]>
              (<["newTag" := "v2"]> ∅)) ].
Proof. vm_compute. reflexivity. Qed.

(** An entry without a name stops the run with [KeyError]. *)
Example nameless_entry_raises :
  update_images [ <["newTag" := "v1"]> ∅ ] [jupyter] "v2"
  = Err (KeyError "name").
Proof. reflexivity. Qed.

Lemma update_images_match_or_append_witness :
  well_formed sample_images
  ∧ NoDup (target_name <$> [jupyter])
  ∧ jupyter ∈ [jupyter]
  ∧ ∃ images', update_images sample_images [jupyter] "v2" = Ok images'
    ∧ (present (target_name jupyter) sample_images →
       ∃ i (img : image),
         sample_images !! i = Some img
         ∧ img !! "name" = Some (target_name jupyter)
         ∧ (target_name jupyter ∉ nameset (take i sample_images))
         ∧ images' !! i
           = Some (<["newTag" := "v2"]>
                     (<["newName" := target_newName jupyter]> img)))
    ∧ (¬ present (target_name jupyter) sample_images →
       ∃ i, length sample_images ≤ i
         ∧ images' !! i
           = Some (<["newTag" := "v2"]>
                     (<["newName" := target_newName jupyter]>
                        {["name" := target_name jupyter]}))).
Proof.
  assert (well_formed sample_images) as Hwf
    by all_named.
  assert (NoDup (target_name <$> [jupyter])) as Hnd
    by (simpl; apply NoDup_singleton).
  assert (jupyter ∈ [jupyter]) as Hin by (by left).
  split; [exact Hwf|]. split; [exact Hnd|]. split; [exact Hin|].
  exact (update_images_match_or_append sample_images [jupyter] "v2" jupyter
           Hwf Hnd Hin).
Defined.

Lemma update_images_frame_witness :
  well_formed sample_images
  ∧ ∃ updated appended,
      update_images sample_images [jupyter] "v2" = Ok (updated ++ appended)
      ∧ length updated = length sample_images
      ∧ (∀ i (img : image), sample_images !! i = Some img →
           ∃ img' : image,
             updated !! i = Some img'
             ∧ img' !! "name" = img !! "name"
             ∧ ((∀ t, t ∈ [jupyter] → img !! "name" ≠ Some (target_name t)) →
                img' = img))
      ∧ Forall (λ s : image,
                  ∃ t, t ∈ [jupyter] ∧ s !! "name" = Some (target_name t)
                       ∧ ¬ present (target_name t) sample_images) appended.
Proof.
  assert (well_formed sample_images) as Hwf
    by all_named.
  split; [exact Hwf|].
  exact (update_images_frame sample_images [jupyter] "v2" Hwf).
Defined.

Lemma update_kustomize_idempotent_witness :
  well_formed (default [] (k_images sample_kustomize))
  ∧ ∃ once,
      update_kustomize sample_kustomize (Application "Jupyter Web App"
        "components/crud-web-apps/jupyter/manifests/base/kustomization.yaml"
        [jupyter]) "v2" = Ok once
      ∧ update_kustomize once (Application "Jupyter Web App"
        "components/crud-web-apps/jupyter/manifests/base/kustomization.yaml"
        [jupyter]) "v2" = Ok once.
Proof.
  assert (well_formed (default [] (k_images sample_kustomize))) as Hwf
    by all_named.
  split; [exact Hwf|].
  exact (update_kustomize_idempotent sample_kustomize _ "v2" Hwf).
Defined.

(** *** The script on its own table *)

(** Every application of the table names its targets differently, so the
    statement on matching or appending applies to each of them. *)
Lemma applications_targets_distinct :
  Forall (λ app, NoDup (target_name <$> app_images app)) applications.
Proof. unfold applications. repeat constructor; simpl; set_solver. Qed.

Lemma update_kustomize_well_formed kustomize app tag :
  well_formed (default [] (k_images kustomize)) →
  ∃ kustomize',
    update_kustomize kustomize app tag = Ok kustomize'
    ∧ well_formed (default [] (k_images kustomize'))
    ∧ k_others kustomize' = k_others kustomize.
Proof.
  intros Hwf. unfold update_kustomize.
  rewrite update_images_closed by done. simpl.
  eexists. split; [done|]. simpl. split; [|done].
  apply first_seen_well_formed; [apply retag_all_preserving|].
  by apply ensure_all_well_formed.
Qed.

(** When every kustomization file of the table is there and its entries
    all carry a name, the script runs to its end. *)
Lemma update_manifests_images_runs apps tag (files : gmap string kustomization) :
  (∀ app, app ∈ apps → is_Some (files !! app_kustomization app)) →
  (∀ path kustomize, files !! path = Some kustomize →
     well_formed (default [] (k_images kustomize))) →
  (update_manifests_images apps tag files).1 = None.
Proof.
  revert files. induction apps as [|app apps IH]; intros files Hex Hwf; [done|].
  simpl. destruct (Hex app) as [kustomize Hk]; [by left|]. rewrite Hk.
  destruct (update_kustomize_well_formed kustomize app tag) as (k' & -> & Hk' & _);
    [by eapply Hwf|].
  apply IH.
  - intros app' Hin. rewrite lookup_insert. case_decide; [by eexists|].
    apply Hex. by right.
  - intros path k. rewrite lookup_insert. case_decide.
    + by intros [= <-].
    + apply Hwf.
Qed.

(** For one application, the script writes back the file with the image
    list the loop over the targets produced, and nothing else changed. *)
Lemma update_manifests_images_one app tag (files : gmap string kustomization)
    kustomize images' :
  files !! app_kustomization app = Some kustomize →
  update_images (default [] (k_images kustomize)) (app_images app) tag
  = Ok images' →
  update_manifests_images [app] tag files
  = (None,
     <[app_kustomization app :=
         Kustomization (Some images') (k_others kustomize)]> files).
Proof.
  intros Hfile Hrun. simpl. rewrite Hfile.
  unfold update_kustomize. by rewrite Hrun.
Qed.

End ReleasingFacts.

(** ** More on the loop over the targets *)

Module ReleasingMore.
Import Releasing ReleasingScript ReleasingFacts.

Lemma retag_override t t' tag tag' (img : image) :
  retag t' tag' (retag t tag img) = retag t' tag' img.
Proof.
  unfold retag. apply map_eq. intros k.
  rewrite !lookup_insert. by repeat case_decide.
Qed.

Lemma retag_all_override tag tag' targets n (img : image) :
  retag_all tag' targets n (retag_all tag targets n img)
  = retag_all tag' targets n img.
Proof.
  rewrite !retag_all_last. destruct (last_target targets n); simpl; [|done].
  apply retag_override.
Qed.

Lemma retag_newTag t tag (img : image) : retag t tag img !! "newTag" = Some tag.
Proof. unfold retag. by rewrite lookup_insert_eq. Qed.

Lemma retag_newName t tag (img : image) :
  retag t tag img !! "newName" = Some (target_newName t).
Proof.
  unfold retag. rewrite lookup_insert_ne by done. by rewrite lookup_insert_eq.
Qed.

Lemma first_seen_take f seen l i :
  take i (first_seen f seen l) = first_seen f seen (take i l).
Proof.
  revert seen i. induction l as [|img l IH]; intros seen [|i]; simpl; try done.
  destruct (img !! "name"); [case_decide|]; simpl; by rewrite IH.
Qed.

(** A run over a list of named entries succeeds, leaves a list of named
    entries, and every target name occurs in it. *)
Lemma update_images_saturates l targets tag :
  well_formed l →
  ∃ l', update_images l targets tag = Ok l'
    ∧ well_formed l'
    ∧ ∀ t, t ∈ targets → present (target_name t) l'.
Proof.
  intros Hwf. rewrite update_images_closed by done.
  eexists. split; [done|]. split.
  - apply first_seen_well_formed; [apply retag_all_preserving|].
    by apply ensure_all_well_formed.
  - intros t Ht. apply first_seen_present; [apply retag_all_preserving|].
    by apply ensure_all_present.
Qed.

(** A second run sees the entries of the first one in place, so only its
    own tag counts. *)
Lemma update_images_again l targets tag tag' l1 :
  well_formed l →
  update_images l targets tag = Ok l1 →
  update_images l1 targets tag' = update_images l targets tag'.
Proof.
  intros Hwf. rewrite (update_images_closed l targets tag) by done.
  rewrite (update_images_closed l targets tag') by done. intros [= <-].
  assert (well_formed (ensure_all targets l)) as Hwf'
    by by apply ensure_all_well_formed.
  rewrite update_images_closed
    by (by apply first_seen_well_formed; [apply retag_all_preserving|]).
  rewrite ensure_all_saturated.
  - rewrite first_seen_compose by apply retag_all_preserving.
    f_equal. apply first_seen_ext. intros n img _.
    apply retag_all_override.
  - intros t Ht. apply first_seen_present; [apply retag_all_preserving|].
    by apply ensure_all_present.
Qed.

(** Two target lists in a row are one run over both. *)
Lemma update_images_app l targets targets' tag :
  update_images l (targets ++ targets') tag
  = l' ← update_images l targets tag; update_images l' targets' tag.
Proof.
  revert l. induction targets as [|t targets IH]; intros l; simpl; [done|].
  destruct (update_target_image l t tag) as [l1|e]; simpl; [apply IH | done].
Qed.

Lemma size_with_new (n : string) (names : gset string) :
  n ∉ names → size ({[n]} ∪ names) = S (size names).
Proof.
  intros Hn. rewrite size_union by set_solver. by rewrite size_singleton.
Qed.

Lemma ensure_all_length targets l :
  length (ensure_all targets l)
  = length l + size (target_names targets ∖ nameset l).
Proof.
  unfold ensure_all, target_names. revert l.
  induction targets as [|u targets IH]; intros l; simpl.
  - replace (∅ ∖ nameset l) with (∅ : gset string) by set_solver.
    rewrite size_empty. lia.
  - rewrite IH. unfold ensure.
    change (list_fmap target_image string target_name targets)
      with (target_name <$> targets).
    destruct (decide (present (target_name u) l)) as [Hp|Hp].
    + apply elem_of_nameset in Hp.
      assert (({[target_name u]} ∪ list_to_set (target_name <$> targets))
              ∖ nameset l
              = list_to_set (target_name <$> targets) ∖ nameset l
                :> gset string) as -> by set_solver.
      done.
    + rewrite <- elem_of_nameset in Hp.
      rewrite length_app, nameset_app.
      rewrite (nameset_cons_Some _ _ (target_name u)) by apply stub_name.
      rewrite nameset_nil.
      set (T := list_to_set (target_name <$> targets) : gset string).
      set (L := nameset l) in *.
      assert (({[target_name u]} ∪ T) ∖ L
              = {[target_name u]} ∪ T ∖ (L ∪ ({[target_name u]} ∪ ∅)))
        as ->.
      { apply set_eq. intros x. set_unfold.
        destruct (decide (x = target_name u)); naive_solver. }
      rewrite size_with_new by set_solver. simpl. lia.
Qed.

(** *** Statements read off the loop *)

(** X2. After a run over a list of named entries every target is served:
    the result has an entry of the target's name, and the first such
    entry carries the tag as [newTag] and, as [newName], the [newName] of
    a target of that name. *)
Theorem update_images_serves_every_target images targets tag t :
  well_formed images → t ∈ targets →
  ∃ images' i (img : image) t',
    update_images images targets tag = Ok images'
    ∧ first_named (target_name t) i images'
    ∧ images' !! i = Some img
    ∧ img !! "newTag" = Some tag
    ∧ t' ∈ targets ∧ target_name t' = target_name t
    ∧ img !! "newName" = Some (target_newName t').
Proof.
  intros Hwf Ht. rewrite update_images_closed by done.
  pose proof (ensure_all_present targets images t Ht) as Hp.
  destruct (present_first_named _ _ Hp) as (i & (e & Hi & Hn) & Hni).
  destruct (last_target targets (target_name t)) as [t'|] eqn:Hlast.
  2:{ rewrite last_target_None in Hlast. by destruct (Hlast t Ht). }
  destruct (last_target_elem _ _ _ Hlast) as [Ht' Hname].
  assert (first_seen (retag_all tag targets) ∅ (ensure_all targets images) !! i
          = Some (retag t' tag e)) as Hi'.
  { rewrite (first_seen_lookup _ _ _ i e (target_name t)) by done.
    rewrite decide_False by set_solver.
    by rewrite retag_all_last, Hlast. }
  eexists _, i, (retag t' tag e), t'. split; [done|]. split.
  - split.
    + eexists. split; [exact Hi'|]. by rewrite retag_name.
    + rewrite first_seen_take.
      by rewrite first_seen_nameset by apply retag_all_preserving.
  - split; [done|]. split; [apply retag_newTag|].
    do 2 (split; [done|]). apply retag_newName.
Qed.

(** X3. A run over a list of named entries changes no key of an old entry
    other than [newName] and [newTag]: whatever else the entry holds (a
    digest, say) stays, at the same index. *)
Theorem update_images_keeps_other_keys images targets tag :
  well_formed images →
  ∃ images', update_images images targets tag = Ok images'
    ∧ ∀ i (img : image), images !! i = Some img →
        ∃ img' : image,
          images' !! i = Some img'
          ∧ ∀ k, k ≠ "newName" → k ≠ "newTag" → img' !! k = img !! k.
Proof.
  intros Hwf. rewrite update_images_closed by done.
  eexists. split; [done|]. intros i img Hi.
  assert (is_Some (img !! "name")) as [n Hn].
  { unfold well_formed in Hwf. rewrite Forall_lookup in Hwf. by eapply Hwf. }
  destruct (ensure_all_extra targets images) as (extra & -> & _).
  rewrite (first_seen_lookup _ _ _ i img n);
    [| by apply lookup_app_l_Some | done].
  eexists. split; [done|]. intros k Hk1 Hk2.
  case_decide; [done|]. rewrite retag_all_last.
  destruct (last_target targets n); simpl; [|done].
  by apply retag_other.
Qed.

(** X4. A run over a list of named entries lengthens it by one entry for
    each target name that no entry had, however often targets repeat
    that name; it never shortens it. *)
Theorem update_images_length images targets tag :
  well_formed images →
  ∃ images', update_images images targets tag = Ok images'
    ∧ length images'
      = length images + size (target_names targets ∖ nameset images).
Proof.
  intros Hwf. rewrite update_images_closed by done.
  eexists. split; [done|].
  by rewrite first_seen_length, ensure_all_length.
Qed.

(** X5. On a kustomization whose entries all carry a name, a run with one
    tag followed by a run with another gives what the run with the second
    tag alone gives: nothing of the first tag is left. *)
Theorem update_kustomize_last_tag_wins kustomize app tag tag' :
  well_formed (default [] (k_images kustomize)) →
  ∃ first,
    update_kustomize kustomize app tag = Ok first
    ∧ update_kustomize first app tag' = update_kustomize kustomize app tag'.
Proof.
  intros Hwf. unfold update_kustomize.
  destruct (update_images_saturates _ (app_images app) tag Hwf)
    as (l1 & Hrun & _ & _).
  rewrite Hrun. simpl. eexists. split; [done|]. simpl.
  by rewrite (update_images_again _ _ tag tag' l1 Hwf Hrun).
Qed.

(** *** On the samples *)

Lemma update_images_serves_every_target_witness :
  ∃ images' i (img : image) t',
    update_images sample_images [jupyter] "v2" = Ok images'
    ∧ first_named (target_name jupyter) i images'
    ∧ images' !! i = Some img
    ∧ img !! "newTag" = Some "v2"
    ∧ t' ∈ [jupyter] ∧ target_name t' = target_name jupyter
    ∧ img !! "newName" = Some (target_newName t').
Proof.
  assert (well_formed sample_images) as Hwf by all_named.
  assert (jupyter ∈ [jupyter]) as Hin by (by left).
  exact (update_images_serves_every_target sample_images [jupyter] "v2"
           jupyter Hwf Hin).
Defined.

Lemma update_images_keeps_other_keys_witness :
  ∃ images', update_images sample_images [jupyter] "v2" = Ok images'
    ∧ ∀ i (img : image), sample_images !! i = Some img →
        ∃ img' : image,
          images' !! i = Some img'
          ∧ ∀ k, k ≠ "newName" → k ≠ "newTag" → img' !! k = img !! k.
Proof.
  assert (well_formed sample_images) as Hwf by all_named.
  exact (update_images_keeps_other_keys sample_images [jupyter] "v2" Hwf).
Defined.

Lemma update_images_length_witness :
  ∃ images',
    update_images [(<["name" := "busybox"]> ∅ : image)] [jupyter; jupyter] "v2"
    = Ok images'
    ∧ length images'
      = 1 + size (target_names [jupyter; jupyter]
                  ∖ nameset [(<["name" := "busybox"]> ∅ : image)]).
Proof.
  assert (well_formed [(<["name" := "busybox"]> ∅ : image)]) as Hwf
    by all_named.
  exact (update_images_length _ [jupyter; jupyter] "v2" Hwf).
Defined.

Example repeated_target_appends_once :
  update_images [(<["name" := "busybox"]> ∅ : image)] [jupyter; jupyter] "v2"
  = Ok [ <["name" := "busybox"]> ∅; new_entry jupyter "v2" ].
Proof. vm_compute. reflexivity. Qed.

Lemma update_kustomize_last_tag_wins_witness :
  ∃ first,
    update_kustomize sample_kustomize jupyter_app "v1.9" = Ok first
    ∧ update_kustomize first jupyter_app "v2"
      = update_kustomize sample_kustomize jupyter_app "v2".
Proof.
  assert (well_formed (default [] (k_images sample_kustomize))) as Hwf
    by all_named.
  exact (update_kustomize_last_tag_wins sample_kustomize jupyter_app
           "v1.9" "v2" Hwf).
Defined.

(** *** The order of the targets *)

Lemma last_target_Permutation targets targets' n :
  NoDup (target_name <$> targets) → targets ≡ₚ targets' →
  last_target targets n = last_target targets' n.
Proof.
  intros Hnd Hperm.
  assert (NoDup (target_name <$> targets')) as Hnd' by by rewrite <- Hperm.
  destruct (last_target targets n) as [t|] eqn:E.
  - apply last_target_elem in E as [Ht <-].
    symmetry. apply last_target_NoDup; [done|]. by rewrite <- Hperm.
  - symmetry. apply last_target_None. rewrite last_target_None in E.
    intros t Ht. apply E. by rewrite Hperm.
Qed.

(** X19. When the targets have pairwise different names and every one of
    them has an entry of its name in the list, the order in which the
    targets are listed does not matter: any reordering of the targets
    gives the same image list. *)
Theorem update_images_target_order images targets targets' tag :
  well_formed images →
  NoDup (target_name <$> targets) →
  (∀ t, t ∈ targets → present (target_name t) images) →
  targets ≡ₚ targets' →
  ∃ images',
    update_images images targets tag = Ok images'
    ∧ update_images images targets' tag = Ok images'.
Proof.
  intros Hwf Hnd Hall Hperm. rewrite !update_images_closed by done.
  eexists. split; [done|].
  rewrite !ensure_all_saturated;
    [| done | by intros t Ht; apply Hall; rewrite Hperm].
  f_equal. apply first_seen_ext. intros n img _.
  rewrite !retag_all_last. by rewrite (last_target_Permutation targets' targets)
    by (by rewrite <- ?Hperm).
Qed.

Lemma update_images_target_order_witness :
  ∃ images',
    update_images sample_images [jupyter; busybox] "v2" = Ok images'
    ∧ update_images sample_images [busybox; jupyter] "v2" = Ok images'.
Proof.
  assert (well_formed sample_images) as Hwf by all_named.
  assert (NoDup (target_name <$> [jupyter; busybox])) as Hnd.
  { simpl. apply NoDup_cons. split; [|apply NoDup_singleton].
    by intros ?%list_elem_of_singleton. }
  assert (∀ t, t ∈ [jupyter; busybox] → present (target_name t) sample_images)
    as Hall.
  { intros t Ht. unfold present.
    apply elem_of_cons in Ht as [->|Ht];
      [|apply list_elem_of_singleton in Ht as ->].
    - apply Exists_cons_tl, Exists_cons_hd. reflexivity.
    - apply Exists_cons_hd. reflexivity. }
  exact (update_images_target_order sample_images [jupyter; busybox]
           [busybox; jupyter] "v2" Hwf Hnd Hall (perm_swap _ _ _)).
Defined.

(** Absent targets are appended in the order listed, so there the order
    shows. *)
Example absent_targets_in_listed_order :
  update_images [] [jupyter; busybox] "v2"
  = Ok [new_entry jupyter "v2"; new_entry busybox "v2"]
  ∧ update_images [] [busybox; jupyter] "v2"
    = Ok [new_entry busybox "v2"; new_entry jupyter "v2"].
Proof. split; vm_compute; reflexivity. Qed.

End ReleasingMore.

(** ** The script over the files *)

Module ReleasingScriptFacts.
Import Releasing ReleasingScript ReleasingFacts ReleasingMore.

Lemma targets_for_untouched path apps :
  path ∉ app_kustomization <$> apps → targets_for path apps = [].
Proof.
  induction apps as [|app apps IH]; simpl; [done|].
  rewrite not_elem_of_cons. intros [Hne Hni].
  rewrite decide_False by done. by apply IH.
Qed.

(** The script over two lists of applications in a row. *)
Lemma update_manifests_images_app apps apps' tag
    (files : gmap string kustomization) :
  update_manifests_images (apps ++ apps') tag files
  = match update_manifests_images apps tag files with
    | (None, mid) => update_manifests_images apps' tag mid
    | (Some e, mid) => (Some e, mid)
    end.
Proof.
  revert files. induction apps as [|app apps IH]; intros files; simpl; [done|].
  destruct (files !! app_kustomization app) as [k|]; [|done].
  destruct (update_kustomize k app tag) as [k'|e]; [apply IH | done].
Qed.

(** X10. Whether the script runs to its end or stops on the way, a file
    that no application names is, after the run, what it was before. *)
Theorem update_manifests_images_untouched apps tag
    (files : gmap string kustomization) path :
  path ∉ app_kustomization <$> apps →
  (update_manifests_images apps tag files).2 !! path = files !! path.
Proof.
  revert files. induction apps as [|app apps IH]; intros files; simpl; [done|].
  rewrite not_elem_of_cons. intros [Hne Hni].
  destruct (files !! app_kustomization app) as [k|]; [|done].
  destruct (update_kustomize k app tag) as [k'|e]; [|done].
  rewrite IH by done. by rewrite lookup_insert_ne.
Qed.

(** File by file, what a run that finds every file well formed leaves. *)
Lemma update_manifests_images_by_path apps tag
    (files : gmap string kustomization) :
  files_present apps files → files_well_formed files →
  ∃ files',
    update_manifests_images apps tag files = (None, files')
    ∧ files_well_formed files'
    ∧ (∀ path, path ∉ app_kustomization <$> apps →
         files' !! path = files !! path)
    ∧ (∀ path, path ∈ app_kustomization <$> apps →
         ∃ kustomize images',
           files !! path = Some kustomize
           ∧ update_images (default [] (k_images kustomize))
                           (targets_for path apps) tag = Ok images'
           ∧ files' !! path
             = Some (Kustomization (Some images') (k_others kustomize))).
Proof.
  revert files. induction apps as [|app apps IH]; intros files Hpres Hwf.
  - exists files. split; [done|]. split; [done|]. split; [done|].
    intros path Hin. by apply elem_of_nil in Hin.
  - destruct (Hpres app) as [ka Hka]; [by left|].
    destruct (update_images_saturates (default [] (k_images ka))
                (app_images app) tag) as (la & Hla & Hwfla & _);
      [by eapply Hwf|].
    set (pa := app_kustomization app) in *.
    set (files1 := <[pa := Kustomization (Some la) (k_others ka)]> files).
    destruct (IH files1) as (files' & Hrun & Hwf' & Hout & Hin).
    { intros app' Happ'. unfold files1. rewrite lookup_insert.
      case_decide; [by eexists|]. apply Hpres. by right. }
    { intros path k. unfold files1. rewrite lookup_insert. case_decide.
      - by intros [= <-].
      - apply Hwf. }
    exists files'. split.
    { simpl. fold pa. rewrite Hka. unfold update_kustomize.
      rewrite Hla. simpl. exact Hrun. }
    split; [done|]. split.
    + intros path. rewrite fmap_cons, not_elem_of_cons. intros [Hne Hni].
      rewrite Hout by done. unfold files1. by rewrite lookup_insert_ne.
    + intros path Hpath. simpl. fold pa.
      destruct (decide (pa = path)) as [<-|Hne].
      * exists ka. destruct (decide (pa ∈ app_kustomization <$> apps)) as [Hp|Hp].
        -- destruct (Hin pa Hp) as (k1 & l' & Hk1 & Hl' & Hfile).
           unfold files1 in Hk1. rewrite lookup_insert_eq in Hk1.
           injection Hk1 as <-. simpl in *.
           exists l'. split; [done|]. split; [|done].
           rewrite update_images_app, Hla. done.
        -- exists la. split; [done|]. split.
           ++ by rewrite targets_for_untouched, app_nil_r.
           ++ rewrite Hout by done. unfold files1. by rewrite lookup_insert_eq.
      * apply elem_of_cons in Hpath as [->|Hpath]; [done|].
        destruct (Hin path Hpath) as (k & l' & Hk & Hl' & Hfile).
        unfold files1 in Hk. rewrite lookup_insert_ne in Hk by done.
        eauto.
Qed.

Lemma update_images_single l t tag :
  update_images l [t] tag = update_target_image l t tag.
Proof. simpl. by destruct (update_target_image l t tag). Qed.

(** In the table no two applications share a file, and each has one
    target. *)
Lemma applications_one_target_each :
  Forall (λ app, ∃ t, app_images app = [t]
                      ∧ targets_for (app_kustomization app) applications = [t])
         applications.
Proof. unfold applications. repeat constructor; eexists; by vm_compute. Qed.

(** X6. Over files that load as a [kustomization], that is, as a
    mapping whose [images] key is absent or holds a sequence of mappings
    that are pairwise different objects (not null, no alias): when every
    application finds its file and the entries of every file all carry a
    name, the script runs to its end, and file by file:
    a file that applications name gets the image list that one loop over
    the targets of all those applications, in script order, makes of its
    old list (of the empty list when it had no [images] key), and keeps
    its other keys; every other file is left as it was. *)
Theorem update_manifests_images_per_file apps tag
    (files : gmap string kustomization) :
  files_present apps files → files_well_formed files →
  ∃ files',
    update_manifests_images apps tag files = (None, files')
    ∧ (∀ path, path ∉ app_kustomization <$> apps →
         files' !! path = files !! path)
    ∧ (∀ path, path ∈ app_kustomization <$> apps →
         ∃ kustomize images',
           files !! path = Some kustomize
           ∧ update_images (default [] (k_images kustomize))
                           (targets_for path apps) tag = Ok images'
           ∧ files' !! path
             = Some (Kustomization (Some images') (k_others kustomize))).
Proof.
  intros Hpres Hwf.
  destruct (update_manifests_images_by_path apps tag files Hpres Hwf)
    as (files' & Hrun & _ & Hout & Hin).
  exists files'. by repeat split.
Qed.

(** X7. When every application finds its file and the entries of every
    file all carry a name, running the script a second time with the same
    tag changes no file, also when applications share a file or repeat a
    target. *)
Theorem update_manifests_images_idempotent apps tag
    (files : gmap string kustomization) :
  files_present apps files → files_well_formed files →
  ∃ once,
    update_manifests_images apps tag files = (None, once)
    ∧ update_manifests_images apps tag once = (None, once).
Proof.
  intros Hpres Hwf.
  destruct (update_manifests_images_by_path apps tag files Hpres Hwf)
    as (once & Hrun & Hwf1 & Hout & Hin).
  exists once. split; [done|].
  destruct (update_manifests_images_by_path apps tag once)
    as (twice & Hrun2 & _ & Hout2 & Hin2); [|done|].
  { intros app Happ.
    destruct (Hin (app_kustomization app)) as (k & l' & _ & _ & ->);
      [by apply list_elem_of_fmap_2 | by eexists]. }
  rewrite Hrun2. f_equal. apply map_eq. intros path.
  destruct (decide (path ∈ app_kustomization <$> apps)) as [Hp|Hp].
  - destruct (Hin path Hp) as (k & l1 & Hk & Hl1 & Hfile).
    destruct (Hin2 path Hp) as (k2 & l2 & Hk2 & Hl2 & Hfile2).
    rewrite Hfile in Hk2. injection Hk2 as <-. simpl in *.
    rewrite Hfile, Hfile2. do 2 f_equal.
    pose proof (update_images_again _ _ tag tag l1 (Hwf _ _ Hk) Hl1) as Hagain.
    rewrite Hagain in Hl2. congruence.
  - by apply Hout2.
Qed.

(** X8. When the script stops at an application, because its file is
    missing or because its loop raises, the files of the applications
    before it have been rewritten and stay so: what is left is what
    running only those earlier applications leaves. *)
Theorem update_manifests_images_stops_midway earlier app later tag
    (files mid : gmap string kustomization) :
  update_manifests_images earlier tag files = (None, mid) →
  (mid !! app_kustomization app = None →
     update_manifests_images (earlier ++ app :: later) tag files
     = (Some (FileNotFoundError (app_kustomization app)), mid))
  ∧ (∀ kustomize e,
       mid !! app_kustomization app = Some kustomize →
       update_kustomize kustomize app tag = Err e →
       update_manifests_images (earlier ++ app :: later) tag files
       = (Some e, mid)).
Proof.
  intros Hearlier. rewrite update_manifests_images_app, Hearlier. simpl. split.
  - by intros ->.
  - intros k e -> ->. done.
Qed.

(** X11. [main] on a checkout where the six kustomization files of the
    table are there, each loads as a [kustomization] (a mapping whose
    [images] key is absent or holds a sequence of mappings that are
    pairwise different objects: not null, no alias) and the entries of
    every file all carry a name: it
    returns, so the exit status is 0; each of the six files gets the image
    list that one pass for the single target of its application makes of
    its old list, and keeps its other keys; no other file changes. *)
Theorem main_rewrites_the_table tag (files : gmap string kustomization) :
  files_present applications files → files_well_formed files →
  ∃ files',
    main tag files = (None, files')
    ∧ script_status (main tag files).1 = 0%Z
    ∧ (∀ path, path ∉ app_kustomization <$> applications →
         files' !! path = files !! path)
    ∧ (∀ app, app ∈ applications →
         ∃ t kustomize images',
           app_images app = [t]
           ∧ files !! app_kustomization app = Some kustomize
           ∧ update_target_image (default [] (k_images kustomize)) t tag
             = Ok images'
           ∧ files' !! app_kustomization app
             = Some (Kustomization (Some images') (k_others kustomize))).
Proof.
  intros Hpres Hwf. unfold main.
  destruct (update_manifests_images_by_path applications tag files Hpres Hwf)
    as (files' & Hrun & _ & Hout & Hin).
  exists files'. rewrite Hrun. do 3 (split; [done|]).
  intros app Happ.
  pose proof applications_one_target_each as Htable.
  rewrite Forall_forall in Htable.
  destruct (Htable app Happ) as (t & Ht & Hfor).
  destruct (Hin (app_kustomization app)) as (k & l' & Hk & Hl' & Hfile);
    [by apply list_elem_of_fmap_2|].
  rewrite Hfor, update_images_single in Hl'. by exists t, k, l'.
Qed.

(** *** On the samples *)

Lemma sample_files_present : files_present [jupyter_app] sample_files.
Proof.
  intros app Happ. apply list_elem_of_singleton in Happ as ->.
  unfold sample_files. rewrite lookup_singleton_eq. by eexists.
Qed.

Lemma sample_files_well_formed : files_well_formed sample_files.
Proof.
  intros path k. unfold sample_files.
  intros [_ <-]%lookup_singleton_Some. all_named.
Qed.

Lemma bare_checkout_present : files_present applications bare_checkout.
Proof.
  intros app Happ. unfold applications in Happ.
  repeat (apply elem_of_cons in Happ as [->|Happ]);
    [exists (Kustomization None ∅); by vm_compute ..|].
  by apply elem_of_nil in Happ.
Qed.

Lemma bare_checkout_well_formed : files_well_formed bare_checkout.
Proof.
  intros path k Hk. unfold bare_checkout in Hk.
  apply elem_of_list_to_map_2 in Hk.
  apply list_elem_of_fmap in Hk as (app & [= _ ->] & _). constructor.
Qed.

Lemma update_manifests_images_untouched_witness :
  (update_manifests_images [tensorboards_app] "v2" sample_files).2
    !! app_kustomization jupyter_app
  = sample_files !! app_kustomization jupyter_app.
Proof.
  refine (update_manifests_images_untouched [tensorboards_app] "v2"
            sample_files (app_kustomization jupyter_app) _).
  simpl. rewrite not_elem_of_cons. split; [done | apply not_elem_of_nil].
Defined.

Lemma update_manifests_images_per_file_witness :
  ∃ files',
    update_manifests_images [jupyter_app] "v2" sample_files = (None, files')
    ∧ (∀ path, path ∉ app_kustomization <$> [jupyter_app] →
         files' !! path = sample_files !! path)
    ∧ (∀ path, path ∈ app_kustomization <$> [jupyter_app] →
         ∃ kustomize images',
           sample_files !! path = Some kustomize
           ∧ update_images (default [] (k_images kustomize))
                           (targets_for path [jupyter_app]) "v2" = Ok images'
           ∧ files' !! path
             = Some (Kustomization (Some images') (k_others kustomize))).
Proof.
  exact (update_manifests_images_per_file [jupyter_app] "v2" sample_files
           sample_files_present sample_files_well_formed).
Defined.

Lemma update_manifests_images_idempotent_witness :
  ∃ once,
    update_manifests_images [jupyter_app; jupyter_app] "v2" sample_files
    = (None, once)
    ∧ update_manifests_images [jupyter_app; jupyter_app] "v2" once
      = (None, once).
Proof.
  refine (update_manifests_images_idempotent [jupyter_app; jupyter_app] "v2"
            sample_files _ sample_files_well_formed).
  intros app Happ. apply sample_files_present.
  apply elem_of_cons in Happ as [->|Happ]; [by left | done].
Defined.

Lemma update_manifests_images_stops_midway_witness :
  update_manifests_images ([jupyter_app] ++ tensorboards_app :: []) "v2"
                          sample_files
  = (Some (FileNotFoundError (app_kustomization tensorboards_app)),
     (update_manifests_images [jupyter_app] "v2" sample_files).2).
Proof.
  refine (proj1 (update_manifests_images_stops_midway
                   [jupyter_app] tensorboards_app [] "v2" sample_files
                   (update_manifests_images [jupyter_app] "v2" sample_files).2
                   _) _).
  - by vm_compute.
  - by vm_compute.
Defined.

Lemma main_rewrites_the_table_witness :
  ∃ files',
    main "v2" bare_checkout = (None, files')
    ∧ script_status (main "v2" bare_checkout).1 = 0%Z
    ∧ (∀ path, path ∉ app_kustomization <$> applications →
         files' !! path = bare_checkout !! path)
    ∧ (∀ app, app ∈ applications →
         ∃ t kustomize images',
           app_images app = [t]
           ∧ bare_checkout !! app_kustomization app = Some kustomize
           ∧ update_target_image (default [] (k_images kustomize)) t "v2"
             = Ok images'
           ∧ files' !! app_kustomization app
             = Some (Kustomization (Some images') (k_others kustomize))).
Proof.
  exact (main_rewrites_the_table "v2" bare_checkout
           bare_checkout_present bare_checkout_well_formed).
Defined.

Example main_on_missing_checkout :
  main "v2" ∅
  = (Some (FileNotFoundError
             "components/crud-web-apps/jupyter/manifests/base/kustomization.yaml"),
     ∅)
  ∧ script_status (main "v2" ∅).1 = 1%Z.
Proof. split; reflexivity. Qed.

End ReleasingScriptFacts.

(** ** More on the PVC operations *)

Module PvcMore.
Import Pvc PvcFacts.

Lemma bind_arguments_error fname params args kwargs e :
  bind_arguments fname params args kwargs = Err e → ∃ why, e = TypeError why.
Proof.
  revert args kwargs.
  induction params as [|p params IH]; intros args kwargs; simpl.
  - destruct args; [destruct kwargs as [|[k v] kwargs]|];
      try done; intros [= <-]; eauto.
  - destruct args as [|a args].
    + destruct (kw_lookup (param_name p) kwargs) as [v|].
      * destruct (bind_arguments fname params [] _) as [vs|e'] eqn:E;
          simpl; [done|]. intros [= <-]. by eapply IH.
      * destruct (param_default p) as [d|]; [|intros [= <-]; eauto].
        destruct (bind_arguments fname params [] kwargs) as [vs|e'] eqn:E;
          simpl; [done|]. intros [= <-]. by eapply IH.
    + destruct (kw_lookup (param_name p) kwargs) as [v|];
        [intros [= <-]; eauto|].
      destruct (bind_arguments fname params args kwargs) as [vs|e'] eqn:E;
        simpl; [done|]. intros [= <-]. by eapply IH.
Qed.

Section Backend.

Context {Cluster : Type}.
Variable authz_check : access_request → Cluster → option exn.
Variable v1_core : adapter_call → Cluster → result value * Cluster.

(** X12. Whatever function of the module is called, and with whatever
    arguments, the call ends in one of four ways: the arguments do not
    fit and [TypeError] is raised with the world untouched; the gate
    raises, after one gate check and with the cluster untouched; the gate
    returns and the adapter is called once, behind that one gate check;
    or the adapter is called once without a gate check, which only
    [patch_pvc] does.  There is never a second gate check or adapter
    call. *)
Theorem call_outcomes f args kwargs (w : world Cluster) :
  let out := call authz_check v1_core f args kwargs w in
  (∃ why, out = (Err (TypeError why), w))
  ∨ (∃ request e,
       authz_check request (cluster w) = Some e
       ∧ out = stopped_at_gate request e w)
  ∨ (∃ request c,
       authz_check request (cluster w) = None
       ∧ out = through_adapter v1_core [GateCheck request] c w)
  ∨ (f = patch_pvc_fn ∧ ∃ c, out = through_adapter v1_core [] c w).
Proof.
  simpl.
  destruct (bind_arguments (function_name f) (signature f) args kwargs)
    as [bound|e] eqn:Hbind.
  2:{ left. destruct (bind_arguments_error _ _ _ _ _ Hbind) as [why ->].
      exists why. by apply call_unbound. }
  rewrite (call_bound authz_check v1_core f args kwargs bound w Hbind).
  assert (∀ verb group version resource namespace c,
            let out :=
              (ensure_authorized Cluster authz_check verb group version
                                 resource namespace;;
               adapter Cluster v1_core c) w in
            (∃ request e, authz_check request (cluster w) = Some e
                          ∧ out = stopped_at_gate request e w)
            ∨ (∃ request c', authz_check request (cluster w) = None
                             ∧ out = through_adapter v1_core
                                       [GateCheck request] c' w)) as Hgate.
  { intros verb group version resource namespace c. simpl.
    rewrite gate_then_adapter. simpl.
    destruct (authz_check _ _) as [e|] eqn:E; [left | right]; eauto. }
  destruct f; destruct bound as [|a1 [|a2 [|a3 [|a4 [|a5 bound]]]]]; simpl;
    try (left; eexists; reflexivity).
  - right. destruct (Hgate "create" "" "v1" "persistentvolumeclaims" a2
                       (create_namespaced_persistent_volume_claim a2 a1
                          (if truthy a3 then VStr "All" else VNone)))
      as [H|H]; [left | right; left]; exact H.
  - right. destruct (Hgate "delete" "" "v1" "persistentvolumeclaims" a2
                       (delete_namespaced_persistent_volume_claim a1 a2))
      as [H|H]; [left | right; left]; exact H.
  - right. destruct (Hgate "list" "" "v1" "persistentvolumeclaims" a1
                       (list_namespaced_persistent_volume_claim a1))
      as [H|H]; [left | right; left]; exact H.
  - right. rewrite patch_pvc_run. simpl. destruct (truthy a4).
    + destruct (authz_check _ _) as [e|] eqn:E;
        [left | right; left]; eauto.
    + right. right. eauto.
Qed.



End Backend.

Example patch_pvc_auth_none_skips_gate :
  call deny_all stub_v1_core patch_pvc_fn
       [VStr "data"; VStr "kubeflow-user"; VObject "patch"; VNone] []
       (World [] [])
  = (Ok (VObject "v1-response"),
     World [patch_namespaced_persistent_volume_claim
              (VStr "data") (VStr "kubeflow-user") (VObject "patch")]
           [AdapterCall (patch_namespaced_persistent_volume_claim
                           (VStr "data") (VStr "kubeflow-user")
                           (VObject "patch"))]).
Proof. reflexivity. Qed.

Example create_pvc_dry_run_string :
  (call allow_all stub_v1_core create_pvc_fn
        [VObject "pvc"; VStr "kubeflow-user"; VStr "false"] []
        (World [] [])).2
  = World [create_namespaced_persistent_volume_claim
             (VStr "kubeflow-user") (VObject "pvc") (VStr "All")]
          [GateCheck (AccessRequest "create" "" "v1" "persistentvolumeclaims"
                                    (VStr "kubeflow-user"));
           AdapterCall (create_namespaced_persistent_volume_claim
                          (VStr "kubeflow-user") (VObject "pvc") (VStr "All"))].
Proof. reflexivity. Qed.

End PvcMore.

(** ** More on the entry point *)

Module EntrypointMore.
Import Entrypoint EntrypointFacts.

Lemma dict_get_config_classes bm mode :
  dict_get mode (config_classes bm)
  = if decide (mode = PRODUCTION_FULL bm) then Some ProdConfig
    else if decide (mode = PRODUCTION bm) then Some ProdConfig
    else if decide (mode = DEVELOPMENT_FULL bm) then Some DevConfig
    else if decide (mode = DEVELOPMENT bm) then Some DevConfig
    else None.
Proof. unfold config_classes. by rewrite !dict_get_set. Qed.

(** X15. Whatever values the enum has, [get_config] answers by the
    production keys first: a mode that is a production value gets
    [ProdConfig], also when a development member has the same value; a
    mode that is only a development value gets [DevConfig]; every other
    mode raises [RuntimeError], with a message that is left open here
    (it holds the [repr] of the keys, which depends on their characters). *)
Theorem get_config_cases bm mode :
  (mode ∈ [PRODUCTION bm; PRODUCTION_FULL bm] →
     get_config bm mode = Ok ProdConfig)
  ∧ (mode ∉ [PRODUCTION bm; PRODUCTION_FULL bm] →
     mode ∈ [DEVELOPMENT bm; DEVELOPMENT_FULL bm] →
     get_config bm mode = Ok DevConfig)
  ∧ (mode ∉ [DEVELOPMENT bm; DEVELOPMENT_FULL bm;
             PRODUCTION bm; PRODUCTION_FULL bm] →
     ∃ msg, get_config bm mode = Err (RuntimeError msg)).
Proof.
  unfold get_config. rewrite dict_get_config_classes.
  split; [|split]; intros; repeat case_decide; eauto; set_solver.
Qed.

(** X16. Loading the module reads the mode before the flavor: with a
    [BACKEND_MODE] that is none of the four values it ends with
    [RuntimeError] (the message is left open), whatever [UI_FLAVOR] is; with one of the four and a
    [UI_FLAVOR] other than ["default"] and ["rok"] it ends with
    [SystemExit(1)]; otherwise it builds the app, named by [APP_NAME] or
    ["Volumes Web App"], with the prefix [APP_PREFIX] or ["/"] and the
    config of the mode.  With [BACKEND_MODE] unset the config is
    [ProdConfig]. *)
Theorem load_cases bm environ :
  let mode := getenv environ "BACKEND_MODE" (PRODUCTION bm) in
  let ui := getenv environ "UI_FLAVOR" "default" in
  let modes := [DEVELOPMENT bm; DEVELOPMENT_FULL bm;
                PRODUCTION bm; PRODUCTION_FULL bm] in
  (mode ∉ modes → ∃ msg, load bm environ = Err (RuntimeError msg))
  ∧ (mode ∈ modes → ui ∉ ["default"; "rok"] →
     load bm environ = Err (SystemExit 1))
  ∧ (mode ∈ modes → ui ∈ ["default"; "rok"] →
     ∃ c, get_config bm mode = Ok c
       ∧ load bm environ
         = Ok (App (if decide (ui = "default") then default_flavor
                    else rok_flavor)
                   (getenv environ "APP_NAME" "Volumes Web App") c
                   (getenv environ "APP_PREFIX" "/")))
  ∧ (environ !! "BACKEND_MODE" = None → get_config bm mode = Ok ProdConfig).
Proof.
  simpl. split; [|split; [|split]].
  - intros Hmode. unfold load. rewrite get_config_other by done. by eexists.
  - intros Hmode Hui. unfold load, get_config.
    rewrite dict_get_config_classes.
    repeat case_decide; simpl; try done; set_solver.
  - intros Hmode Hui. unfold load, get_config.
    rewrite dict_get_config_classes.
    repeat case_decide; simpl; eauto; set_solver.
  - intros Hunset. unfold getenv. rewrite Hunset. simpl.
    unfold get_config. rewrite dict_get_config_classes.
    by repeat case_decide.
Qed.

Example load_bad_mode_and_flavor :
  load upstream_modes {["BACKEND_MODE" := "staging"; "UI_FLAVOR" := "kale"]}
  = Err (RuntimeError
           ("Backend mode 'staging' is not implemented. Choose one of "
            +:+ "['dev', 'development', 'prod', 'production']")).
Proof. reflexivity. Qed.

(** With a development member written with a production value, the
    production class is what the mode gets. *)
Example get_config_shared_value :
  get_config (BackendMode "prod" "development" "prod" "production") "prod"
  = Ok ProdConfig.
Proof. reflexivity. Qed.

End EntrypointMore.

(** ** More on the tensorboards route *)

Module TensorboardsMore.
Import Tensorboards TensorboardsStubs TensorboardsFacts.

Lemma comprehension_first_error {A B} (f : A → result B) before bad after e :
  Forall (λ x, ∃ y, f x = Ok y) before → f bad = Err e →
  comprehension f (before ++ bad :: after) = Err e.
Proof.
  intros Hbefore Hbad.
  induction Hbefore as [|x before [y Hy] _ IH]; simpl.
  - by rewrite Hbad.
  - rewrite Hy. simpl. by rewrite IH.
Qed.

(** When [api.list_custom_rsrc] raises, the route raises the same
    exception and leaves the world as the backend left it, whatever the
    parser and the response builder are. *)
Lemma get_tensorboards_backend_error {Item Parsed Response World : Type}
    (list_custom_rsrc :
       string → string → string → string → World
       → result (resource_list Item) * World)
    (parse_tensorboard : Item → result Parsed)
    (success_response : string → list Parsed → Response)
    namespace w e w' :
  list_custom_rsrc "tensorboard.kubeflow.org" "v1alpha1" "tensorboards"
                   namespace w = (Err e, w') →
  get_tensorboards list_custom_rsrc parse_tensorboard success_response
                   namespace w
  = (Err e, w').
Proof. intros Hlist. unfold get_tensorboards. by rewrite Hlist. Qed.

(** X17. When the backend returns items and the parser raises on one of
    them after parsing all the items before it, the route raises that
    exception: no response is built from the items that did parse, and
    the items behind the failing one are not looked at. *)
Theorem get_tensorboards_parse_error {Item Parsed Response World : Type}
    (list_custom_rsrc :
       string → string → string → string → World
       → result (resource_list Item) * World)
    (parse_tensorboard : Item → result Parsed)
    (success_response : string → list Parsed → Response)
    namespace w tensorboards w' before bad after e :
  list_custom_rsrc "tensorboard.kubeflow.org" "v1alpha1" "tensorboards"
                   namespace w = (Ok tensorboards, w') →
  items tensorboards = before ++ bad :: after →
  Forall (λ item, ∃ parsed, parse_tensorboard item = Ok parsed) before →
  parse_tensorboard bad = Err e →
  (∀ parse',
     (∀ item, item ∈ before ++ [bad] → parse' item = parse_tensorboard item) →
     get_tensorboards list_custom_rsrc parse' success_response namespace w
     = (Err e, w')).
Proof.
  intros Hlist Hitems Hbefore Hbad parse' Hsame.
  unfold get_tensorboards. rewrite Hlist. simpl. rewrite Hitems.
  rewrite (comprehension_first_error parse' before bad after e); [done| |].
  - eapply Forall_impl; [apply Forall_forall; intros x Hx; exact Hx|].
    simpl. intros x Hx. rewrite Hsame by set_solver.
    rewrite Forall_forall in Hbefore. by apply Hbefore.
  - rewrite Hsame by set_solver. done.
Qed.

Example get_tensorboards_denied :
  get_tensorboards stub_list_denied stub_parse (λ k c, (k, c))
                   "kubeflow-user" tt
  = (Err (Unauthorized "forbidden"), tt).
Proof. reflexivity. Qed.

Lemma get_tensorboards_parse_error_witness :
  get_tensorboards stub_list stub_parse_strict (λ k c, (k, c))
                   "kubeflow-user" tt
  = (Err (KeyError "spec"), tt).
Proof.
  refine (get_tensorboards_parse_error stub_list stub_parse_strict
            (λ k c, (k, c)) "kubeflow-user" tt
            (ResourceList "TensorboardList" ["tb-a"; "tb-b"; "tb-c"]) tt
            ["tb-a"] "tb-b" ["tb-c"] (KeyError "spec")
            eq_refl eq_refl _ eq_refl stub_parse_strict (λ _ _, eq_refl)).
  repeat constructor. by eexists.
Defined.

End TensorboardsMore.

(** ** The loop on shared objects *)

Module ReleasingObjectsFacts.
Import Releasing ReleasingObjects ReleasingFacts.

Lemma object_at_insert_eq (store : gmap nat image) r img :
  object_at (<[r := img]> store) r = img.
Proof. unfold object_at. by rewrite lookup_total_insert_eq. Qed.

Lemma object_at_insert_ne (store : gmap nat image) r r' img :
  r ≠ r' → object_at (<[r := img]> store) r' = object_at store r'.
Proof. intros H. unfold object_at. by rewrite lookup_total_insert_ne. Qed.

Lemma name_at_retagged (store : gmap nat image) r r' t tag :
  name_at (<[r := retag t tag (object_at store r)]> store) r'
  = name_at store r'.
Proof.
  unfold name_at. destruct (decide (r = r')) as [->|Hne].
  - by rewrite object_at_insert_eq, retag_name.
  - by rewrite object_at_insert_ne.
Qed.

(** An address that reads as a named object is an address of the store. *)
Lemma named_in_store (store : gmap nat image) r n :
  name_at store r = Some n → r ∈ dom store.
Proof.
  unfold name_at, object_at. rewrite lookup_total_alt.
  intros H. apply elem_of_dom. destruct (store !! r); [by eexists|].
  simpl in H. by rewrite lookup_empty in H.
Qed.

Lemma fresh_not_named (store : gmap nat image) n :
  name_at store (fresh (dom store)) ≠ Some n.
Proof. intros H%named_in_store. by apply is_fresh in H. Qed.

Lemma name_at_appended (store : gmap nat image) img r n :
  name_at store r = Some n →
  name_at (<[fresh (dom store) := img]> store) r = Some n.
Proof.
  intros H. unfold name_at. rewrite object_at_insert_ne; [done|].
  intros <-. by eapply fresh_not_named.
Qed.

Lemma first_ref_unique n i r k r' refs (store : gmap nat image) :
  first_ref n i r refs store → first_ref n k r' refs store → i = k ∧ r = r'.
Proof.
  intros (Hi & Hn & Hbefore) (Hk & Hn' & Hbefore').
  destruct (Nat.lt_trichotomy i k) as [Hlt|[->|Hlt]].
  - by destruct (Hbefore' i r Hlt Hi).
  - split; [done|]. congruence.
  - by destruct (Hbefore k r' Hlt Hk).
Qed.

Lemma first_ref_present n i r refs (store : gmap nat image) :
  first_ref n i r refs store → present_ref n refs store.
Proof.
  intros (Hi & Hn & _). unfold present_ref. apply Exists_exists.
  exists r. split; [|done]. apply list_elem_of_lookup. eauto.
Qed.

(** *** One pass of the inner loop *)

Lemma scan_refs_cases refs t tag (store : gmap nat image) :
  named_refs refs store →
  (¬ present_ref (target_name t) refs store
   ∧ scan_refs refs t tag store = Ok (false, store))
  ∨ (∃ i r, first_ref (target_name t) i r refs store
       ∧ scan_refs refs t tag store
         = Ok (true, <[r := retag t tag (object_at store r)]> store)).
Proof.
  unfold named_refs, present_ref.
  induction 1 as [|r refs [n Hn] Hnamed IH]; simpl.
  - left. split; [|done]. by intros H%Exists_nil.
  - rewrite Hn. destruct (decide (n = target_name t)) as [->|Hne].
    + right. exists 0, r. split; [|done]. split; [done|]. split; [done|].
      intros j r' Hj. lia.
    + destruct IH as [[Habsent ->]|(i & rf & (Hi & Hrf & Hbefore) & ->)].
      * left. split; [|done]. rewrite Exists_cons. intros [?|?]; [|done].
        congruence.
      * right. exists (S i), rf. split; [|done]. split; [done|].
        split; [done|]. intros [|j] r' Hj; simpl.
        -- intros [= <-]. congruence.
        -- apply Hbefore. lia.
Qed.

Lemma update_target_ref_cases refs t tag (store : gmap nat image) :
  named_refs refs store →
  (¬ present_ref (target_name t) refs store
   ∧ update_target_ref refs t tag store
     = Ok (refs ++ [fresh (dom store)],
           <[fresh (dom store) := new_entry t tag]> store))
  ∨ (∃ i r, first_ref (target_name t) i r refs store
       ∧ update_target_ref refs t tag store
         = Ok (refs, <[r := retag t tag (object_at store r)]> store)).
Proof.
  intros Hnamed. unfold update_target_ref.
  destruct (scan_refs_cases refs t tag store Hnamed)
    as [[Habsent ->]|(i & r & Hfirst & ->)]; simpl; [left | right]; eauto.
Qed.

Lemma named_refs_retagged refs (store : gmap nat image) r t tag :
  named_refs refs store →
  named_refs refs (<[r := retag t tag (object_at store r)]> store).
Proof.
  unfold named_refs. intros Hnamed. eapply Forall_impl; [exact Hnamed|].
  simpl. intros r'. by rewrite name_at_retagged.
Qed.

Lemma named_refs_appended refs (store : gmap nat image) t tag :
  named_refs refs store →
  named_refs (refs ++ [fresh (dom store)])
             (<[fresh (dom store) := new_entry t tag]> store).
Proof.
  unfold named_refs. intros Hnamed. apply Forall_app. split.
  - eapply Forall_impl; [exact Hnamed|]. simpl. intros r [n Hn].
    exists n. by apply name_at_appended.
  - constructor; [|constructor]. unfold name_at.
    rewrite object_at_insert_eq. by eexists.
Qed.

Lemma first_ref_retagged n i r refs (store : gmap nat image) rk t tag :
  first_ref n i r refs store →
  first_ref n i r refs (<[rk := retag t tag (object_at store rk)]> store).
Proof.
  intros (Hi & Hn & Hbefore). split; [done|]. rewrite name_at_retagged.
  split; [done|]. intros j r' Hj Hr'. rewrite name_at_retagged. eauto.
Qed.

Lemma first_ref_appended n i r refs (store : gmap nat image) img :
  named_refs refs store → first_ref n i r refs store →
  first_ref n i r (refs ++ [fresh (dom store)])
            (<[fresh (dom store) := img]> store).
Proof.
  intros Hnamed (Hi & Hn & Hbefore). split; [by apply lookup_app_l_Some|].
  split; [by apply name_at_appended|].
  intros j r' Hj Hr'.
  rewrite lookup_app_l in Hr' by (apply lookup_lt_Some in Hi; lia).
  unfold named_refs in Hnamed. rewrite Forall_lookup in Hnamed.
  destruct (Hnamed j r' Hr') as [m Hm].
  rewrite (name_at_appended _ _ _ m Hm). rewrite <- Hm. eauto.
Qed.

(** *** The loop over the targets, seen from one object *)

Lemma update_refs_first refs (store : gmap nat image) targets tag n i r :
  named_refs refs store → first_ref n i r refs store →
  ∃ refs' store',
    update_refs refs targets tag store = Ok (refs', store')
    ∧ refs `prefix_of` refs'
    ∧ object_at store' r = retag_all tag targets n (object_at store r)
    ∧ ∀ r', r' ≠ r → name_at store r' = Some n →
        object_at store' r' = object_at store r'.
Proof.
  revert refs store.
  induction targets as [|t targets IH]; intros refs store Hnamed Hfirst.
  - exists refs, store. by repeat split.
  - pose proof Hfirst as (Hi & Hn & _). rewrite retag_all_cons.
    cbn [update_refs].
    destruct (update_target_ref_cases refs t tag store Hnamed)
      as [[Habsent ->]|(k & rk & Hk & ->)]; simpl.
    + assert (target_name t ≠ n) as Hne.
      { intros <-. by apply Habsent, (first_ref_present _ i r). }
      destruct (IH _ _ (named_refs_appended refs store t tag Hnamed)
                  (first_ref_appended _ _ _ _ _ (new_entry t tag)
                     Hnamed Hfirst))
        as (refs' & store' & -> & Hpre & Hr & Hothers).
      exists refs', store'. split; [done|]. split.
      { etrans; [|exact Hpre]. by apply prefix_app_r. }
      assert (∀ r0 m, name_at store r0 = Some m →
                object_at (<[fresh (dom store) := new_entry t tag]> store) r0
                = object_at store r0) as Hold.
      { intros r0 m Hm. apply object_at_insert_ne. intros <-.
        by eapply fresh_not_named. }
      split.
      * rewrite Hr, (Hold r n Hn). by rewrite retag_one_ne.
      * intros r' Hr' Hn'. rewrite Hothers; [by eapply Hold | done |].
        by apply name_at_appended.
    + destruct (IH _ _ (named_refs_retagged refs store rk t tag Hnamed)
                  (first_ref_retagged _ _ _ _ _ rk t tag Hfirst))
        as (refs' & store' & -> & Hpre & Hr & Hothers).
      exists refs', store'. do 2 (split; [done|]).
      destruct (decide (target_name t = n)) as [<-|Hne].
      * destruct (first_ref_unique _ _ _ _ _ _ _ Hfirst Hk) as [<- <-].
        split.
        -- rewrite Hr, object_at_insert_eq. by rewrite retag_one_eq.
        -- intros r' Hr' Hn'. rewrite Hothers;
             [by apply object_at_insert_ne | done |].
           by rewrite name_at_retagged.
      * destruct Hk as (_ & Hnk & _).
        assert (rk ≠ r) as Hrk by (intros ->; congruence).
        split.
        -- rewrite Hr, object_at_insert_ne by done. by rewrite retag_one_ne.
        -- intros r' Hr' Hn'. rewrite Hothers; [| done |].
           ++ apply object_at_insert_ne. intros ->. congruence.
           ++ by rewrite name_at_retagged.
Qed.

(** C9, as amended.  In a list of entries that all carry a name, let the
    entry at index [i] be the first one called after a target, and [r]
    the object it is.  The run succeeds; that object gets [newName] and
    [newTag] from a target of this name (the target itself when target
    names are pairwise different); a later entry of the same name reads
    as before when it is another object, and reads as the updated first
    entry when it is the same object (an alias of it). *)
Theorem update_refs_first_duplicate_only
    refs (store : gmap nat image) targets tag t i r :
  named_refs refs store → t ∈ targets →
  first_ref (target_name t) i r refs store →
  ∃ refs' store' t',
    update_refs refs targets tag store = Ok (refs', store')
    ∧ t' ∈ targets ∧ target_name t' = target_name t
    ∧ (NoDup (target_name <$> targets) → t' = t)
    ∧ view refs' store' !! i
      = Some (<["newTag" := tag]>
                (<["newName" := target_newName t']> (object_at store r)))
    ∧ ∀ j r',
        i < j → refs !! j = Some r' →
        name_at store r' = Some (target_name t) →
        view refs' store' !! j
        = Some (if decide (r' = r)
                then <["newTag" := tag]>
                       (<["newName" := target_newName t']>
                          (object_at store r))
                else object_at store r').
Proof.
  intros Hnamed Ht Hfirst.
  destruct (update_refs_first refs store targets tag _ i r Hnamed Hfirst)
    as (refs' & store' & Hrun & Hpre & Hr & Hothers).
  destruct (last_target targets (target_name t)) as [t'|] eqn:Hlast; cycle 1.
  { exfalso. rewrite last_target_None in Hlast. by apply (Hlast t Ht). }
  pose proof (last_target_elem _ _ _ Hlast) as [Ht' Hname].
  rewrite retag_all_last, Hlast in Hr. simpl in Hr. unfold retag in Hr.
  exists refs', store', t'. do 3 (split; [done|]). split.
  { intros Hnd. rewrite (last_target_NoDup targets t Hnd Ht) in Hlast.
    congruence. }
  destruct Hfirst as (Hi & _ & _). unfold view. split.
  - rewrite list_lookup_fmap, (prefix_lookup_Some _ _ _ _ Hi Hpre).
    simpl. by rewrite Hr.
  - intros j r' Hij Hj Hn'.
    rewrite list_lookup_fmap, (prefix_lookup_Some _ _ _ _ Hj Hpre). simpl.
    case_decide as Hrr'; [by subst r'; rewrite Hr|].
    by rewrite Hothers.
Qed.

Lemma update_refs_first_duplicate_only_witness :
  named_refs [0; 1; 0] separate_store
  ∧ jupyter ∈ [jupyter]
  ∧ first_ref (target_name jupyter) 0 0 [0; 1; 0] separate_store
  ∧ ∃ refs' store' t',
      update_refs [0; 1; 0] [jupyter] "v2" separate_store
      = Ok (refs', store')
      ∧ t' ∈ [jupyter] ∧ target_name t' = target_name jupyter
      ∧ (NoDup (target_name <$> [jupyter]) → t' = jupyter)
      ∧ view refs' store' !! 0
        = Some (<["newTag" := "v2"]>
                  (<["newName" := target_newName t']>
                     (object_at separate_store 0)))
      ∧ ∀ j r',
          0 < j → [0; 1; 0] !! j = Some r' →
          name_at separate_store r' = Some (target_name jupyter) →
          view refs' store' !! j
          = Some (if decide (r' = 0)
                  then <["newTag" := "v2"]>
                         (<["newName" := target_newName t']>
                            (object_at separate_store 0))
                  else object_at separate_store r').
Proof.
  assert (named_refs [0; 1; 0] separate_store) as Hnamed.
  { repeat constructor; eexists; by vm_compute. }
  assert (jupyter ∈ [jupyter]) as Hin by (by left).
  assert (first_ref (target_name jupyter) 0 0 [0; 1; 0] separate_store)
    as Hfirst.
  { split; [reflexivity|]. split; [by vm_compute|]. intros j r' Hj. lia. }
  split; [exact Hnamed|]. split; [exact Hin|]. split; [exact Hfirst|].
  exact (update_refs_first_duplicate_only [0; 1; 0] separate_store [jupyter]
           "v2" jupyter 0 0 Hnamed Hin Hfirst).
Defined.

(** Against C9 as first stated: a list whose two positions are one
    object (a YAML anchor and its alias).  Both entries are called after
    the target; the loop writes to the first, and the later duplicate
    reads with the new [newName] and [newTag] as well. *)
Lemma update_refs_alias_changes_later_duplicate :
  view [0; 0] aliased_store = [duplicate; duplicate]
  ∧ duplicate !! "name" = Some (target_name jupyter)
  ∧ duplicate !! "newTag" = Some "v1"
  ∧ duplicate !! "newName" = None
  ∧ ∃ refs' store',
      update_refs [0; 0] [jupyter] "v2" aliased_store = Ok (refs', store')
      ∧ view refs' store' !! 1
        = Some (<["newTag" := "v2"]>
                  (<["newName" := target_newName jupyter]> duplicate))
      ∧ view refs' store' !! 1 ≠ Some duplicate.
Proof.
  split; [by vm_compute|]. do 3 (split; [by vm_compute|]).
  eexists _, _. split; [by vm_compute|]. split; [by vm_compute|].
  vm_compute. discriminate.
Qed.

End ReleasingObjectsFacts.

(** ** The loop on values and the loop on objects *)

Module ReleasingRefinement.
Import Releasing ReleasingObjects ReleasingObjectsFacts.

Lemma view_insert_other refs (store : gmap nat image) r img :
  r ∉ refs → view refs (<[r := img]> store) = view refs store.
Proof.
  intros Hr. unfold view. apply list_fmap_ext. intros i r' Hi.
  apply object_at_insert_ne. intros ->. apply Hr.
  apply list_elem_of_lookup. eauto.
Qed.

Lemma view_frame refs (store store' : gmap nat image) :
  (∀ r, r ∈ refs → object_at store' r = object_at store r) →
  view refs store' = view refs store.
Proof.
  intros H. unfold view. apply list_fmap_ext. intros i r Hi.
  apply H, list_elem_of_lookup. eauto.
Qed.

Lemma view_cons r refs (store : gmap nat image) :
  view (r :: refs) store = object_at store r :: view refs store.
Proof. reflexivity. Qed.

Lemma view_app refs refs' (store : gmap nat image) :
  view (refs ++ refs') store = view refs store ++ view refs' store.
Proof. unfold view. apply fmap_app. Qed.

(** One pass of the inner loop over pairwise different objects does to
    the list as read what the pass over values does. *)
Lemma scan_refs_view refs t tag (store : gmap nat image) :
  NoDup refs →
  match scan_refs refs t tag store with
  | Ok (found, store') =>
      scan_images (view refs store) t tag = Ok (found, view refs store')
      ∧ (found = false → store' = store)
      ∧ (∀ r, r ∉ refs → object_at store' r = object_at store r)
      ∧ ((∀ r, r ∈ refs → r ∈ dom store) → dom store' = dom store)
  | Err e => scan_images (view refs store) t tag = Err e
  end.
Proof.
  induction refs as [|r refs IH]; intros Hnd; [done|].
  apply NoDup_cons in Hnd as [Hr Hnd]. specialize (IH Hnd).
  cbn [scan_refs]. unfold name_at.
  rewrite view_cons. cbn [scan_images].
  destruct (object_at store r !! "name") as [n|]; [|done].
  case_decide as Hn.
  - split; [|split; [done|split]].
    + by rewrite view_cons, object_at_insert_eq, view_insert_other.
    + intros r' Hr'. apply object_at_insert_ne. intros ->.
      apply Hr'. by left.
    + intros Hdom. rewrite dom_insert_L.
      assert (r ∈ dom store) by (apply Hdom; by left). set_solver.
  - destruct (scan_refs refs t tag store) as [[found store']|e].
    + destruct IH as (-> & Hsame & Hframe & Hdom).
      split; [|split; [done|split]].
      * by rewrite view_cons, Hframe.
      * intros r' Hr'. apply Hframe. intros ?. apply Hr'. by right.
      * intros Hin. apply Hdom. intros r' Hr'. apply Hin. by right.
    + by rewrite IH.
Qed.

Lemma update_target_ref_view refs t tag (store : gmap nat image) :
  NoDup refs → (∀ r, r ∈ refs → r ∈ dom store) →
  match update_target_ref refs t tag store with
  | Ok (refs', store') =>
      update_target_image (view refs store) t tag = Ok (view refs' store')
      ∧ NoDup refs' ∧ (∀ r, r ∈ refs' → r ∈ dom store')
  | Err e => update_target_image (view refs store) t tag = Err e
  end.
Proof.
  intros Hnd Hdom. unfold update_target_ref, update_target_image.
  pose proof (scan_refs_view refs t tag store Hnd) as Hscan.
  destruct (scan_refs refs t tag store) as [[found store']|e];
    [|by rewrite Hscan].
  destruct Hscan as (-> & Hsame & _ & Hdom'). simpl.
  destruct found.
  - split; [done|]. split; [done|]. by rewrite Hdom'.
  - rewrite Hsame by done.
    assert (fresh (dom store) ∉ refs) as Hfresh.
    { intros H%Hdom. by apply is_fresh in H. }
    split; [|split].
    + rewrite view_app, view_cons, object_at_insert_eq.
      by rewrite view_insert_other.
    + apply NoDup_app. split; [done|]. split; [|apply NoDup_singleton].
      intros r Hr ->%list_elem_of_singleton. done.
    + intros r. rewrite dom_insert_L, elem_of_app, list_elem_of_singleton.
      intros [H%Hdom| ->]; set_solver.
Qed.

(** When no two positions of the list are the same object, the loop that
    writes into the objects leaves the list reading as the loop on values
    leaves it, and stops with the same exception when that one stops: on
    such lists the statements about [update_images] are statements about
    the loop on objects. *)
Theorem update_refs_separate_objects
    refs (store : gmap nat image) targets tag :
  NoDup refs → (∀ r, r ∈ refs → r ∈ dom store) →
  view_of (update_refs refs targets tag store)
  = update_images (view refs store) targets tag.
Proof.
  revert refs store.
  induction targets as [|t targets IH]; intros refs store Hnd Hdom; [done|].
  cbn [update_refs update_images].
  pose proof (update_target_ref_view refs t tag store Hnd Hdom) as Hstep.
  destruct (update_target_ref refs t tag store) as [[refs' store']|e].
  - destruct Hstep as (-> & Hnd' & Hdom'). simpl. by apply IH.
  - by rewrite Hstep.
Qed.

Lemma update_refs_separate_objects_witness :
  NoDup [0; 1]
  ∧ (∀ r, r ∈ [0; 1] → r ∈ dom separate_store)
  ∧ view_of (update_refs [0; 1] [jupyter] "v2" separate_store)
    = update_images (view [0; 1] separate_store) [jupyter] "v2".
Proof.
  assert (NoDup [0; 1]) as Hnd.
  { repeat constructor; set_solver. }
  assert (∀ r, r ∈ [0; 1] → r ∈ dom separate_store) as Hdom.
  { intros r Hr. apply elem_of_dom. unfold separate_store.
    repeat (apply elem_of_cons in Hr as [->|Hr]); [by eexists..|].
    by apply elem_of_nil in Hr. }
  split; [exact Hnd|]. split; [exact Hdom|].
  exact (update_refs_separate_objects [0; 1] separate_store [jupyter] "v2"
           Hnd Hdom).
Defined.

End ReleasingRefinement.

(** ** An entry without a name, on shared objects *)

Module ReleasingNameless.
Import Releasing ReleasingObjects ReleasingObjectsFacts.

Lemma scan_refs_app_found pre rest t tag (store store' : gmap nat image) :
  scan_refs pre t tag store = Ok (true, store') →
  scan_refs (pre ++ rest) t tag store = Ok (true, store').
Proof.
  induction pre as [|r pre IH]; [done|]. cbn [scan_refs app].
  change ((r :: pre) ++ rest) with (r :: (pre ++ rest)). cbn [scan_refs].
  destruct (name_at store r) as [n|]; [|done]. by case_decide.
Qed.

Lemma scan_refs_app_missed pre rest t tag (store store' : gmap nat image) :
  scan_refs pre t tag store = Ok (false, store') →
  scan_refs (pre ++ rest) t tag store = scan_refs rest t tag store.
Proof.
  induction pre as [|r pre IH]; [done|].
  change ((r :: pre) ++ rest) with (r :: (pre ++ rest)). cbn [scan_refs].
  destruct (name_at store r) as [n|]; [|done]. by case_decide.
Qed.

Lemma present_ref_retagged n refs (store : gmap nat image) r t tag :
  present_ref n refs (<[r := retag t tag (object_at store r)]> store)
  ↔ present_ref n refs store.
Proof.
  unfold present_ref. rewrite !Exists_exists.
  by setoid_rewrite name_at_retagged.
Qed.

Lemma first_ref_elem n i r refs (store : gmap nat image) :
  first_ref n i r refs store → r ∈ refs.
Proof. intros (Hi & _). apply list_elem_of_lookup. eauto. Qed.

(** Every target finds an entry before the nameless one: the inner loop
    never reaches it. *)
Lemma update_refs_before_nameless
    pre rest (store : gmap nat image) targets tag :
  named_refs pre store →
  Forall (λ t, present_ref (target_name t) pre store) targets →
  ∃ store',
    update_refs (pre ++ rest) targets tag store = Ok (pre ++ rest, store')
    ∧ update_refs pre targets tag store = Ok (pre, store')
    ∧ ∀ r, r ∉ pre → object_at store' r = object_at store r.
Proof.
  revert store.
  induction targets as [|t targets IH]; intros store Hnamed Hall.
  - by exists store.
  - apply Forall_cons in Hall as [Ht Hall].
    destruct (scan_refs_cases pre t tag store Hnamed)
      as [[Habsent _]|(i & r & Hfirst & Hscan)]; [done|].
    destruct (IH (<[r := retag t tag (object_at store r)]> store))
      as (store' & Hrun & Hrun' & Hframe).
    { by apply named_refs_retagged. }
    { eapply Forall_impl; [exact Hall|]. simpl. intros t'.
      by rewrite present_ref_retagged. }
    exists store'. cbn [update_refs]. unfold update_target_ref.
    rewrite (scan_refs_app_found _ rest _ _ _ _ Hscan), Hscan. simpl.
    do 2 (split; [done|]). intros r' Hr'. rewrite Hframe by done.
    apply object_at_insert_ne. intros ->.
    by apply Hr', (first_ref_elem _ _ _ _ _ Hfirst).
Qed.

(** Some target finds no entry before the nameless one: its inner loop
    reads the name of that entry. *)
Lemma update_refs_at_nameless
    pre b post (store : gmap nat image) targets tag :
  named_refs pre store → name_at store b = None →
  Exists (λ t, ¬ present_ref (target_name t) pre store) targets →
  update_refs (pre ++ b :: post) targets tag store = Err (KeyError "name").
Proof.
  revert store.
  induction targets as [|t targets IH]; intros store Hnamed Hb Hsome.
  - by apply Exists_nil in Hsome.
  - cbn [update_refs]. unfold update_target_ref.
    destruct (scan_refs_cases pre t tag store Hnamed)
      as [[Habsent Hscan]|(i & r & Hfirst & Hscan)].
    + rewrite (scan_refs_app_missed _ _ _ _ _ _ Hscan). cbn [scan_refs].
      by rewrite Hb.
    + rewrite (scan_refs_app_found _ _ _ _ _ _ Hscan). simpl.
      apply IH.
      * by apply named_refs_retagged.
      * by rewrite name_at_retagged.
      * apply Exists_cons in Hsome as [Hsome|Hsome].
        { destruct Hsome. by apply (first_ref_present _ i r). }
        eapply Exists_impl; [exact Hsome|]. simpl. intros t'.
        by rewrite present_ref_retagged.
Qed.

(** X1. A list of entries, each an object that may sit at several
    positions, whose first entry without a name has the named entries
    [pre] before it.  When every target finds an entry of its name in [pre], the run
    succeeds as on [pre] alone, appends nothing and writes only to
    objects of [pre]; when some target finds none, the run stops with
    [KeyError] for the key [name]. *)
Theorem update_refs_nameless
    pre b post (store : gmap nat image) targets tag :
  named_refs pre store → name_at store b = None →
  (Forall (λ t, present_ref (target_name t) pre store) targets →
   ∃ store',
     update_refs (pre ++ b :: post) targets tag store
     = Ok (pre ++ b :: post, store')
     ∧ update_refs pre targets tag store = Ok (pre, store')
     ∧ ∀ r, r ∉ pre → object_at store' r = object_at store r)
  ∧ (Exists (λ t, ¬ present_ref (target_name t) pre store) targets →
     update_refs (pre ++ b :: post) targets tag store
     = Err (KeyError "name")).
Proof.
  intros Hnamed Hb. split.
  - by apply update_refs_before_nameless.
  - by apply update_refs_at_nameless.
Qed.

Lemma update_refs_nameless_witness :
  named_refs [0] nameless_store
  ∧ name_at nameless_store 1 = None
  ∧ (Forall (λ t, present_ref (target_name t) [0] nameless_store) [jupyter] →
     ∃ store',
       update_refs ([0] ++ 1 :: [0]) [jupyter] "v2" nameless_store
       = Ok ([0] ++ 1 :: [0], store')
       ∧ update_refs [0] [jupyter] "v2" nameless_store = Ok ([0], store')
       ∧ ∀ r, r ∉ [0] → object_at store' r = object_at nameless_store r)
  ∧ (Exists (λ t, ¬ present_ref (target_name t) [0] nameless_store)
       [jupyter] →
     update_refs ([0] ++ 1 :: [0]) [jupyter] "v2" nameless_store
     = Err (KeyError "name")).
Proof.
  assert (named_refs [0] nameless_store) as Hnamed.
  { repeat constructor; eexists; by vm_compute. }
  assert (name_at nameless_store 1 = None) as Hb by (by vm_compute).
  split; [exact Hnamed|]. split; [exact Hb|].
  exact (update_refs_nameless [0] 1 [0] nameless_store [jupyter] "v2"
           Hnamed Hb).
Defined.

(** The nameless entry stops the run for a target called like no entry
    before it, also when an entry behind it carries that name. *)
Example update_refs_nameless_stops :
  update_refs [1; 0] [jupyter] "v2" nameless_store = Err (KeyError "name").
Proof. by vm_compute. Qed.

End ReleasingNameless.
